(** * Skipper: streaming multipart body parser

    A shallow embedding of [index.js] (the [streamingBodyParser]
    middleware), [lib/Upstream.js] (the [Upstream] readable of file
    streams) and [lib/Parser/index.js] ([Parser.prototype.acquireUpstream]),
    together with the properties of the flow-control engine that the
    specification states about them.

    JavaScript objects that are shared and mutated (the request body, the
    table of watched fields, the file streams handed to an [Upstream]) are
    kept in an explicit store that every handler threads through; object
    identity is an allocation number. *)

From stdpp Require Import gmap strings list pretty.
From Stdlib Require Import ZArith Lia Ascii.

Open Scope string_scope.
Open Scope list_scope.
Open Scope nat_scope.

(** ** JavaScript values and errors *)

Module Js.

(** A number is either finite, and then stands for its canonical decimal
    rendering (what [ToString] yields, and what a property lookup uses as
    the key), or one of the three non-finite values. *)
Inductive number :=
| NFinite (repr : string)
| NNaN
| NInfinity (negative : bool).

(** The primitive values an argument can be, and [VObject] for a plain
    object or a function. *)
Inductive value :=
| VUndefined
| VNull
| VBool (b : bool)
| VNumber (n : number)
| VString (s : string)
| VObject.

(** [new Error(message)], with the [code] property that some call sites
    set afterwards. *)
Record error := mkError { code : option string; message : string }.

#[global] Instance number_eq_dec : EqDecision number.
Proof. solve_decision. Defined.
#[global] Instance value_eq_dec : EqDecision value.
Proof. solve_decision. Defined.
#[global] Instance error_eq_dec : EqDecision error.
Proof. solve_decision. Defined.

(** [ToString], as used by [+] on a string and by property access. *)
Definition to_string (v : value) : string :=
  match v with
  | VUndefined => "undefined"
  | VNull => "null"
  | VBool true => "true"
  | VBool false => "false"
  | VNumber (NFinite r) => r
  | VNumber NNaN => "NaN"
  | VNumber (NInfinity false) => "Infinity"
  | VNumber (NInfinity true) => "-Infinity"
  | VString s => s
  | VObject => "[object Object]"
  end.

(** lodash predicates, on the values above. *)
Definition isUndefined (v : value) : bool :=
  match v with VUndefined => true | _ => false end.

Definition isString (v : value) : bool :=
  match v with VString _ => true | _ => false end.

Definition isFinite (v : value) : bool :=
  match v with VNumber (NFinite _) => true | _ => false end.

(** [v === 0] *)
Definition strict_eq_zero (v : value) : bool :=
  match v with VNumber (NFinite r) => bool_decide (r = "0") | _ => false end.

(** *** Plain objects *)

(** The properties that every plain object inherits from
    [Object.prototype], as the runtime provides it. *)
Definition object_prototype_keys : list string :=
  ["constructor"; "toString"; "toLocaleString"; "valueOf"; "hasOwnProperty";
   "isPrototypeOf"; "propertyIsEnumerable"; "__defineGetter__"; "__defineSetter__";
   "__lookupGetter__"; "__lookupSetter__"; "__proto__"].

Definition inherited (key : string) : bool :=
  bool_decide (key ∈ object_prototype_keys).

(** What [object[key]] yields on a plain object with the own properties
    [own]: an own property, else the inherited value (a function, or
    [Object.prototype] itself for [__proto__]: truthy, and not one of the
    stored values), else [undefined]. *)
Inductive property (A : Type) :=
| Own (a : A)
| Inherited (key : string)
| Undefined.
Arguments Own {A} a.
Arguments Inherited {A} key.
Arguments Undefined {A}.

Definition get_property {A} (own : gmap string A) (key : string) : property A :=
  match own !! key with
  | Some a => Own a
  | None => if inherited key then Inherited key else Undefined
  end.

(** [object[key] = value] for a string [value]: an own property is
    overwritten; otherwise one is created, except under [__proto__], whose
    inherited setter ignores a value that is not an object. *)
Definition set_string_property (key value : string) (own : gmap string string)
  : gmap string string :=
  match own !! key with
  | Some _ => <[key := value]> own
  | None => if bool_decide (key = "__proto__") then own else <[key := value]> own
  end.

(** Outcome of a call that may [throw]: the store is kept either way. *)
Inductive outcome (S A : Type) :=
| Returned (a : A) (s : S)
| Thrown (e : error) (s : S).
Arguments Returned {S A} a s.
Arguments Thrown {S A} e s.

Definition state_of {S A} (o : outcome S A) : S :=
  match o with Returned _ s => s | Thrown _ s => s end.

Definition completed {S A} (o : outcome S A) : bool :=
  match o with Returned _ _ => true | Thrown _ _ => false end.

(** Sequencing of calls over a store [S]; a [throw] skips the rest. *)
Definition M (S A : Type) := S → outcome S A.

Definition ret {S A} (a : A) : M S A := fun s => Returned a s.
Definition throw {S A} (e : error) : M S A := fun s => Thrown e s.
Definition bind {S A B} (m : M S A) (k : A → M S B) : M S B :=
  fun s => match m s with
           | Returned a s' => k a s'
           | Thrown e s' => Thrown e s'
           end.
Definition get {S} : M S S := fun s => Returned s s.
Definition modify {S} (f : S → S) : M S unit := fun s => Returned tt (f s).

(** [_.each(xs, f)] *)
Fixpoint each {S A} (f : A → M S unit) (xs : list A) : M S unit :=
  match xs with
  | [] => ret tt
  | x :: xs' => bind (f x) (fun _ => each f xs')
  end.

End Js.

Notation "'let*' x ':=' m 'in' k" := (Js.bind m (fun x => k))
  (at level 10, x name, m at level 100, k at level 200, only parsing).
Notation "m ;;; k" := (Js.bind m (fun _ => k))
  (at level 100, right associativity, only parsing).

(** ** [index.js]: the [streamingBodyParser] middleware *)

Module Middleware.

Import Js.

(** A part reported by the multipart decoder ([fieldStream]). *)
Record FieldStream := mkPart {
  name : string;
  filename : option string;
  _id : option nat
}.

(** Modelled from the spec: [UploadStream] (required from [./UploadStream],
    which is not among the sources) is the flow-controlled sequence of
    uploaded files, one per field and one global, with an append-only
    record of the file streams emitted on it and a terminal flag.  An
    instance is identified by its allocation number; it records the file
    streams written to it and the [end] calls it received, in order. *)
Record UploadStream := mkUploadStream {
  us_ref : nat;
  us_fieldName : option value;
  us_written : list FieldStream;
  us_ended : list (option error)
}.

(** Modelled from the spec: [NoopStream] (required from [./NoopStream],
    which is not among the sources) is the dead no-op stand-in handed out
    once a request is closed; what is written to it is discarded.
    [req.file] hands back a watched [UploadStream] or a fresh
    [NoopStream], each by reference, or, for a field named like a
    property of [Object.prototype], the value inherited under that name,
    which is no stream. *)
Inductive handle :=
| AnUploadStream (ref : nat)
| ANoopStream (ref : nat)
| AnInherited (key : string).

#[global] Instance handle_eq_dec : EqDecision handle.
Proof. solve_decision. Defined.

(** Console and logger output that the properties refer to. *)
Inductive logged :=
| LateTextParam (fieldName : string)
| RequestStreamError (e : error).

(** The variables of one request: [req.body], [req.files],
    [req.files._watchedFields] and the closure variables of
    [streamingBodyParser].  [next_calls] lists the invocations of the
    middleware's [next], oldest first, each with its argument. *)
Record Session := mkSession {
  body : gmap string string;
  files : UploadStream;
  _watchedFields : gmap string UploadStream;
  _nextFileId : nat;
  hasControl : bool;
  anyFilesDetected : bool;
  reqClosed : bool;
  maxWaitTimer : bool;
  fresh : nat;
  next_calls : list (option error);
  log : list logged
}.

Definition set_body f (s : Session) : Session :=
  mkSession (f (body s)) (files s) (_watchedFields s) (_nextFileId s) (hasControl s)
    (anyFilesDetected s) (reqClosed s) (maxWaitTimer s) (fresh s) (next_calls s) (log s).
Definition set_files f (s : Session) : Session :=
  mkSession (body s) (f (files s)) (_watchedFields s) (_nextFileId s) (hasControl s)
    (anyFilesDetected s) (reqClosed s) (maxWaitTimer s) (fresh s) (next_calls s) (log s).
Definition set_watchedFields f (s : Session) : Session :=
  mkSession (body s) (files s) (f (_watchedFields s)) (_nextFileId s) (hasControl s)
    (anyFilesDetected s) (reqClosed s) (maxWaitTimer s) (fresh s) (next_calls s) (log s).
Definition set_nextFileId f (s : Session) : Session :=
  mkSession (body s) (files s) (_watchedFields s) (f (_nextFileId s)) (hasControl s)
    (anyFilesDetected s) (reqClosed s) (maxWaitTimer s) (fresh s) (next_calls s) (log s).
Definition set_hasControl b (s : Session) : Session :=
  mkSession (body s) (files s) (_watchedFields s) (_nextFileId s) b
    (anyFilesDetected s) (reqClosed s) (maxWaitTimer s) (fresh s) (next_calls s) (log s).
Definition set_anyFilesDetected b (s : Session) : Session :=
  mkSession (body s) (files s) (_watchedFields s) (_nextFileId s) (hasControl s)
    b (reqClosed s) (maxWaitTimer s) (fresh s) (next_calls s) (log s).
Definition set_reqClosed b (s : Session) : Session :=
  mkSession (body s) (files s) (_watchedFields s) (_nextFileId s) (hasControl s)
    (anyFilesDetected s) b (maxWaitTimer s) (fresh s) (next_calls s) (log s).
Definition set_maxWaitTimer b (s : Session) : Session :=
  mkSession (body s) (files s) (_watchedFields s) (_nextFileId s) (hasControl s)
    (anyFilesDetected s) (reqClosed s) b (fresh s) (next_calls s) (log s).
Definition set_fresh f (s : Session) : Session :=
  mkSession (body s) (files s) (_watchedFields s) (_nextFileId s) (hasControl s)
    (anyFilesDetected s) (reqClosed s) (maxWaitTimer s) (f (fresh s)) (next_calls s) (log s).
Definition call_next (arg : option error) (s : Session) : Session :=
  mkSession (body s) (files s) (_watchedFields s) (_nextFileId s) (hasControl s)
    (anyFilesDetected s) (reqClosed s) (maxWaitTimer s) (fresh s) (next_calls s ++ [arg]) (log s).
Definition write_log (l : logged) (s : Session) : Session :=
  mkSession (body s) (files s) (_watchedFields s) (_nextFileId s) (hasControl s)
    (anyFilesDetected s) (reqClosed s) (maxWaitTimer s) (fresh s) (next_calls s) (log s ++ [l]).

(** [new UploadStream(fieldName)] *)
Definition new_UploadStream (ref : nat) : UploadStream :=
  mkUploadStream ref None [] [].

Definition us_set_fieldName (f : value) (u : UploadStream) : UploadStream :=
  mkUploadStream (us_ref u) (Some f) (us_written u) (us_ended u).
(** [stream.write(fieldStream)] *)
Definition us_write (p : FieldStream) (u : UploadStream) : UploadStream :=
  mkUploadStream (us_ref u) (us_fieldName u) (us_written u ++ [p]) (us_ended u).
(** [stream.end(err)] *)
Definition us_end (e : option error) (u : UploadStream) : UploadStream :=
  mkUploadStream (us_ref u) (us_fieldName u) (us_written u) (us_ended u ++ [e]).

(** [validFieldName] *)
Definition validFieldName (fieldName : value) : bool :=
  negb (isUndefined fieldName) &&
  (isString fieldName || isFinite fieldName || strict_eq_zero fieldName).

Definition newline : string := String "010"%char "".

Definition usage_error (fieldName : value) : error :=
  mkError None
    ("Invalid usage of `req.file('fieldName')`!" +:+ newline +:+
     "`" +:+ to_string fieldName +:+ "` is not a valid field name.").

(** [req.file]; [_watchedFields] is a plain object read by property
    access. *)
Definition req_file (fieldName : value) : M Session handle :=
  if negb (validFieldName fieldName) then throw (usage_error fieldName)
  else
    let* s := get in
    if reqClosed s then
      modify (set_fresh S);;;
      ret (ANoopStream (fresh s))
    else
      let key := to_string fieldName in
      match get_property (_watchedFields s) key with
      | Own u => ret (AnUploadStream (us_ref u))
      | Inherited k => ret (AnInherited k)
      | Undefined =>
          let u := us_set_fieldName fieldName (new_UploadStream (fresh s)) in
          modify (set_fresh S);;;
          modify (set_watchedFields (insert key u));;;
          ret (AnUploadStream (us_ref u))
      end.

(** [passControl] *)
Definition passControl (err : option error) (s : Session) : Session :=
  if negb (hasControl s) then s
  else
    let s := set_hasControl false s in
    match err with
    | Some e => call_next (Some e) s
    | None => call_next None (set_maxWaitTimer false s)
    end.

(** [giveUpOnFiles], the callback of [maxWaitTimer]; it runs only while
    the timer is still pending. *)
Definition giveUpOnFiles (s : Session) : Session :=
  if maxWaitTimer s then
    let s := set_maxWaitTimer false s in
    if negb (anyFilesDetected s) then passControl None s else s
  else s.

(** [requestComplete] *)
Definition requestComplete (err : option error) (s : Session) : Session :=
  let s := match err with
           | Some e => write_log (RequestStreamError e) s
           | None => s
           end in
  let s := set_files (us_end err) s in
  let s := set_watchedFields (fmap (us_end err)) s in
  let s := set_reqClosed true s in
  passControl None s.

(** [receiveFirstFile] *)
Definition receiveFirstFile (s : Session) : Session :=
  passControl None (set_anyFilesDetected true s).

(** The [TypeError] of calling a method that the object does not have;
    the wording of its message is the runtime's. *)
Definition not_a_function : error :=
  mkError None "specificUploadStream.write is not a function".

(** [specificUploadStream.write(fieldStream)] on what [req.file]
    returned: a [NoopStream] discards the write, and a value inherited
    from [Object.prototype] has no [write], which is a [TypeError]. *)
Definition write_to (h : handle) (key : string) (p : FieldStream) : M Session unit :=
  match h with
  | AnUploadStream _ => modify (set_watchedFields (alter (us_write p) key))
  | ANoopStream _ => ret tt
  | AnInherited _ => throw not_a_function
  end.

(** [receiveFile] *)
Definition receiveFile (fieldStream : FieldStream) : M Session unit :=
  let* s := get in
  let fieldStream := mkPart (name fieldStream) (filename fieldStream) (Some (_nextFileId s)) in
  modify (set_nextFileId S);;;
  modify (set_files (us_write fieldStream));;;
  let* specificUploadStream := req_file (VString (name fieldStream)) in
  write_to specificUploadStream (name fieldStream) fieldStream;;;
  let* s := get in
  if negb (anyFilesDetected s) then modify receiveFirstFile else ret tt.

(** [!! fieldStream.filename] *)
Definition isFile (fieldStream : FieldStream) : bool :=
  match filename fieldStream with
  | Some f => negb (bool_decide (f = ""))
  | None => false
  end.

(** [receiveFieldStream]; a text part is left to the decoder, which
    reports it later through the ['field'] event. *)
Definition receiveFieldStream (fieldStream : FieldStream) : M Session unit :=
  if isFile fieldStream then receiveFile fieldStream else ret tt.

(** The listener of [form.on('field', ...)]; [req.body] is a plain
    object. *)
Definition onField (fieldName value : string) (s : Session) : Session :=
  let s := if anyFilesDetected s then write_log (LateTextParam fieldName) s else s in
  set_body (set_string_property fieldName value) s.

(** *** Set-up *)

(** The variables as the middleware has them when it calls
    [form.parse(req, requestComplete)]: [req.body = req.body || {}] keeps
    whatever [body0] an earlier middleware left, the global stream is
    allocated first, [hasControl] is set; [anyFilesDetected], [reqClosed]
    and [maxWaitTimer] are declared further down and still [undefined]. *)
Definition before_parse (body0 : gmap string string) : Session :=
  mkSession body0 (new_UploadStream 0) ∅ 0 true false false false 1 [] [].

(** The statements after [form.parse]: [anyFilesDetected = false],
    [reqClosed = false], and the wait timer is set. *)
Definition after_parse (s : Session) : Session :=
  set_maxWaitTimer true (set_reqClosed false (set_anyFilesDetected false s)).

(** The state once [streamingBodyParser] has set the request up.  A
    decoder that fails at once calls [requestComplete] back inside
    [form.parse], with the error [early] holds; otherwise [early] is
    [None]. *)
Definition setup (body0 : gmap string string) (early : option (option error)) : Session :=
  after_parse
    (match early with
     | Some err => requestComplete err (before_parse body0)
     | None => before_parse body0
     end).

(** The set-up during which the decoder does not call back. *)
Definition init (body0 : gmap string string) : Session := setup body0 None.

(** What the decoder, the timer and the application can do to a
    session after set-up. *)
Inductive event :=
| Part (fieldStream : FieldStream)
| Field (fieldName value : string)
| MaxWaitElapsed
| RequestComplete (err : option error)
| BodyParserDone (err : option error)
| FileLookup (fieldName : value).

Definition handle_event (ev : event) (s : Session) : Session :=
  match ev with
  | Part p => state_of (receiveFieldStream p s)
  | Field f v => onField f v s
  | MaxWaitElapsed => giveUpOnFiles s
  | RequestComplete err => requestComplete err s
  | BodyParserDone err => passControl err s
  | FileLookup v => state_of (req_file v s)
  end.

Definition run (evs : list event) (s : Session) : Session :=
  foldl (fun s ev => handle_event ev s) s evs.

(** The request of the specification's property: text fields, then file
    parts. *)
Definition text_fields (kvs : list (string * string)) : list event :=
  map (fun kv => Field kv.1 kv.2) kvs.

Definition file_part (nf : string * string) : event :=
  Part (mkPart nf.1 (Some nf.2) None).

(** [req.body] after the listed assignments, oldest first. *)
Definition assign_all (kvs : list (string * string)) (b : gmap string string)
  : gmap string string :=
  foldl (fun b kv => set_string_property kv.1 kv.2 b) b kvs.

(** *** Notions used to state the properties *)

(** How many more times [next] can be called, plus how often it was. *)
Definition budget (s : Session) : nat :=
  length (next_calls s) + (if hasControl s then 1 else 0).

(** Every stream so far was allocated before [fresh]. *)
Definition refs_below_fresh (s : Session) : Prop :=
  us_ref (files s) < fresh s ∧
  ∀ k u, _watchedFields s !! k = Some u → us_ref u < fresh s.

End Middleware.

(** ** [lib/Upstream.js] *)

Module Upstream.

Import Js.

(** *** The inherited [EventEmitter], for the ['error'] event *)

(** [events.EventEmitter] and [stream.Readable] are Node's own classes;
    what is used of them here is as Node documents it: [emit('error')]
    throws the error when nothing listens, a [once] listener is removed
    when it runs, and an object-mode [Readable] queues what is pushed and
    hands it out in that order. *)

(** The listeners that can be registered for ['error']: the one
    [writeFile] puts on a file stream, the one [acquireUpstream] puts on
    an [Upstream], and listeners of receivers or application code, told
    apart by a tag. *)
Inductive handler :=
| onFileStreamError
| onUpstreamError
| external (tag : nat).

Record listener := mkListener { once : bool; callback : handler }.

#[global] Instance handler_eq_dec : EqDecision handler.
Proof. solve_decision. Defined.
#[global] Instance listener_eq_dec : EqDecision listener.
Proof. solve_decision. Defined.

(** The listeners left after an [emit]: [once] listeners are gone. *)
Definition after_emit (ls : list listener) : list listener :=
  filter (fun l => once l = false) ls.

(** *** File streams *)

(** A file stream as the [Upstream] meets it: its [filename], its
    ['error'] listeners, and whether its bytes have all been read out by
    a consumer already (which [Upstream.js] never looks at). *)
Record FileStream := mkFileStream {
  fs_filename : string;
  fs_listeners : list listener;
  fs_drained : bool
}.

#[global] Instance FileStream_inhabited : Inhabited FileStream :=
  populate (mkFileStream "" [] false).

Inductive status := bufferingOrWriting | cancelled.

#[global] Instance status_eq_dec : EqDecision status.
Proof. solve_decision. Defined.

(** An entry of [this._files]; [stream] refers to the shared file stream
    in the store. *)
Record file := mkFile { stream : nat; file_status : status }.

#[global] Instance file_eq_dec : EqDecision file.
Proof. solve_decision. Defined.

(** *** The [Upstream] object *)

Record options := mkOptions {
  maxTimeToWaitForFirstFile : Z;
  maxTimeToBuffer : Z
}.

(** The defaults of the constructor. *)
Definition defaults : options := mkOptions 1500 20000.

(** [this.timeouts]: each timer is pending with its due time, or no
    longer pending (it has run or was cleared). *)
Record timers := mkTimers {
  untilFirstFileTimer : option Z;
  untilMaxBufferTimer : option Z
}.

(** The fields of an [Upstream]: its own ([fieldName], [_files],
    [connectedTo], [timeouts], [_connected]), the object-mode [Readable]
    it extends ([buffer], [ended]) and the [EventEmitter] under that
    ([listeners] of ['error']). *)
Record Upstream := mkUpstream {
  opts : options;
  fieldName : value;
  _files : list file;
  connectedTo : list nat;
  timeouts : timers;
  _connected : bool;
  buffer : list nat;
  ended : bool;
  listeners : list listener
}.

Inductive emitter := OnFile (ref : nat) | OnUpstream.

(** What the outside can observe: a listener being run with an error,
    and the log line of a fatal incoming error with the time it is
    written. *)
Inductive observation :=
| Heard (target : emitter) (h : handler) (e : error)
| FatalLogged (at_time : Z) (e : error).

#[global] Instance emitter_eq_dec : EqDecision emitter.
Proof. solve_decision. Defined.
#[global] Instance observation_eq_dec : EqDecision observation.
Proof. solve_decision. Defined.

(** The store: the file streams by reference (a reference not written
    yet denotes a stream nobody listens to), the [Upstream], the clock
    in milliseconds, and the observations so far, oldest first. *)
Record World := mkWorld {
  heap : gmap nat FileStream;
  self : Upstream;
  clock : Z;
  trace : list observation
}.

Definition on_self (f : Upstream → Upstream) (w : World) : World :=
  mkWorld (heap w) (f (self w)) (clock w) (trace w).
Definition on_heap (f : gmap nat FileStream → gmap nat FileStream) (w : World) : World :=
  mkWorld (f (heap w)) (self w) (clock w) (trace w).
Definition observe (os : list observation) (w : World) : World :=
  mkWorld (heap w) (self w) (clock w) (trace w ++ os).
Definition set_clock (t : Z) (w : World) : World :=
  mkWorld (heap w) (self w) t (trace w).

Definition set_fieldName v (u : Upstream) : Upstream :=
  mkUpstream (opts u) v (_files u) (connectedTo u) (timeouts u) (_connected u)
    (buffer u) (ended u) (listeners u).
Definition set_files f (u : Upstream) : Upstream :=
  mkUpstream (opts u) (fieldName u) (f (_files u)) (connectedTo u) (timeouts u) (_connected u)
    (buffer u) (ended u) (listeners u).
Definition set_timeouts f (u : Upstream) : Upstream :=
  mkUpstream (opts u) (fieldName u) (_files u) (connectedTo u) (f (timeouts u)) (_connected u)
    (buffer u) (ended u) (listeners u).
Definition set_connected b (u : Upstream) : Upstream :=
  mkUpstream (opts u) (fieldName u) (_files u) (connectedTo u) (timeouts u) b
    (buffer u) (ended u) (listeners u).
Definition set_buffer f (u : Upstream) : Upstream :=
  mkUpstream (opts u) (fieldName u) (_files u) (connectedTo u) (timeouts u) (_connected u)
    (f (buffer u)) (ended u) (listeners u).
Definition set_ended b (u : Upstream) : Upstream :=
  mkUpstream (opts u) (fieldName u) (_files u) (connectedTo u) (timeouts u) (_connected u)
    (buffer u) b (listeners u).
Definition set_listeners f (u : Upstream) : Upstream :=
  mkUpstream (opts u) (fieldName u) (_files u) (connectedTo u) (timeouts u) (_connected u)
    (buffer u) (ended u) (f (listeners u)).

Definition fs_set_listeners f (fs : FileStream) : FileStream :=
  mkFileStream (fs_filename fs) (f (fs_listeners fs)) (fs_drained fs).

(** [new Upstream(opts)] at time [now]: both timers are armed. *)
Definition new (o : options) (now : Z) : Upstream :=
  mkUpstream o VUndefined [] []
    (mkTimers (Some (now + maxTimeToWaitForFirstFile o)%Z)
              (Some (now + maxTimeToBuffer o)%Z))
    false [] false [].

(** [stream.emit('error', err)] on a file stream: with no listener the
    error is thrown; otherwise every listener runs, in order of
    registration, and the [once] ones are removed. *)
Definition emit_on_file (ref : nat) (err : error) : M World unit :=
  let* w := get in
  match fs_listeners (heap w !!! ref) with
  | [] => throw err
  | ls =>
      modify (on_heap (<[ref := fs_set_listeners after_emit (heap w !!! ref)]>));;;
      modify (observe (map (fun l => Heard (OnFile ref) (callback l) err) ls))
  end.

(** [this.emit('error', err)] on the [Upstream] itself. *)
Definition emit_on_self (err : error) : M World unit :=
  let* w := get in
  match listeners (self w) with
  | [] => throw err
  | ls =>
      modify (on_self (set_listeners after_emit));;;
      modify (observe (map (fun l => Heard OnUpstream (callback l) err) ls))
  end.

(** [filestream.once('error', ...)] and [.on('error', ...)] *)
Definition add_file_listener (ref : nat) (l : listener) (w : World) : World :=
  on_heap (<[ref := fs_set_listeners (fun ls => ls ++ [l]) (heap w !!! ref)]>) w.

(** [upstream.on('error', ...)] and [.once('error', ...)] *)
Definition add_listener (l : listener) (w : World) : World :=
  on_self (set_listeners (fun ls => ls ++ [l])) w.

(** *** The inherited object-mode [Readable] *)

Definition push_after_EOF : error := mkError None "stream.push() after EOF".

(** [this.push(chunk)]: [null] ends the sequence; an object is queued,
    unless the sequence has ended, which is an ['error'] on the stream. *)
Definition push (chunk : option nat) : M World unit :=
  let* w := get in
  match chunk with
  | None => modify (on_self (set_ended true))
  | Some c =>
      if ended (self w) then emit_on_self push_after_EOF
      else modify (on_self (set_buffer (fun b => b ++ [c])))
  end.

(** [Upstream.prototype._read] *)
Definition _read : M World unit :=
  modify (on_self (set_connected true)).

(** What a pull yields: the next file stream, nothing yet, or the end of
    the sequence. *)
Inductive pulled := Item (ref : nat) | Pending | EndOfSequence.

#[global] Instance pulled_eq_dec : EqDecision pulled.
Proof. solve_decision. Defined.

(** [read()] by a consumer: the stream is asked for more through
    [_read] unless it has ended, and the head of the queue is handed
    over. *)
Definition read : M World pulled :=
  let* w := get in
  (if ended (self w) then ret tt else _read);;;
  match buffer (self w) with
  | c :: rest => modify (on_self (set_buffer (fun _ => rest)));;; ret (Item c)
  | [] => ret (if ended (self w) then EndOfSequence else Pending)
  end.

(** *** [Upstream.prototype] *)

(** [writeFile] *)
Definition writeFile (filestream : nat) : M World unit :=
  modify (on_self (set_files (fun fs => fs ++ [mkFile filestream bufferingOrWriting])));;;
  modify (add_file_listener filestream (mkListener true onFileStreamError));;;
  push (Some filestream).

(** [noMoreFiles] *)
Definition noMoreFiles : M World unit := push None.

Definition clear_all (t : timers) : timers := mkTimers None None.

Definition cancel (i : nat) (fs : list file) : list file :=
  alter (fun f => mkFile (stream f) cancelled) i fs.

(** The body of the loop over [this._files] in [fatalIncomingError]. *)
Definition cancel_file (err : error) (entry : nat * file) : M World unit :=
  modify (on_self (set_files (cancel entry.1)));;;
  emit_on_file (stream entry.2) err.

(** [fatalIncomingError] *)
Definition fatalIncomingError (err : error) : M World unit :=
  modify (on_self (set_timeouts clear_all));;;
  let* w := get in
  modify (observe [FatalLogged (clock w) err]);;;
  each (cancel_file err) (imap pair (_files (self w)));;;
  noMoreFiles;;;
  emit_on_self err.

Definition ms (z : Z) : string := pretty z.

(** The two errors of the constructor's timers. *)
Definition first_file_timeout (u : Upstream) : error :=
  mkError (Some "ETIMEOUT")
    ("ETIMEOUT: An Upstream (`" +:+ to_string (fieldName u) +:+
     "`) timed out waiting for file(s). " +:+
     "No files were sent after waiting " +:+
     ms (maxTimeToWaitForFirstFile (opts u)) +:+ "ms.").

Definition max_buffer_timeout (u : Upstream) : error :=
  mkError (Some "ETIMEOUT")
    ("ETIMEOUT: An Upstream (`" +:+ to_string (fieldName u) +:+
     "`) timed out before it was plugged into a receiver. " +:+
     "It was still unused after waiting " +:+
     ms (maxTimeToBuffer (opts u)) +:+ "ms. " +:+
     "You can configure this timeout by changing the `maxTimeToBuffer` option.").

(** The callback of [untilFirstFileTimer] *)
Definition onFirstFileTimer : M World unit :=
  let* w := get in
  if bool_decide (length (_files (self w)) = 0)
  then fatalIncomingError (first_file_timeout (self w))
  else ret tt.

(** The callback of [untilMaxBufferTimer] *)
Definition onMaxBufferTimer : M World unit :=
  let* w := get in
  if bool_decide (length (connectedTo (self w)) = 0)
  then fatalIncomingError (max_buffer_timeout (self w))
  else ret tt.

(** *** The timers of the event loop *)

(** Run the first-file timer if it is pending and due at [t]. *)
Definition fire_first_file (t : Z) : M World unit :=
  let* w := get in
  match untilFirstFileTimer (timeouts (self w)) with
  | Some d =>
      if (d <=? t)%Z then
        modify (on_self (set_timeouts (fun tm => mkTimers None (untilMaxBufferTimer tm))));;;
        modify (set_clock d);;;
        onFirstFileTimer
      else ret tt
  | None => ret tt
  end.

Definition fire_max_buffer (t : Z) : M World unit :=
  let* w := get in
  match untilMaxBufferTimer (timeouts (self w)) with
  | Some d =>
      if (d <=? t)%Z then
        modify (on_self (set_timeouts (fun tm => mkTimers (untilFirstFileTimer tm) None)));;;
        modify (set_clock d);;;
        onMaxBufferTimer
      else ret tt
  | None => ret tt
  end.

Definition earlier (a b : option Z) : bool :=
  match a, b with
  | Some x, Some y => (x <? y)%Z
  | _, _ => false
  end.

(** Time passes until [t]: the timers that are due run, the one due
    earlier first (the first-file timer, set first, when they tie). *)
Definition elapse (t : Z) : M World unit :=
  let* w := get in
  (if earlier (untilMaxBufferTimer (timeouts (self w)))
              (untilFirstFileTimer (timeouts (self w)))
   then fire_max_buffer t;;; fire_first_file t
   else fire_first_file t;;; fire_max_buffer t);;;
  modify (set_clock t).

(** *** Producer and consumer *)

(** A consumer reads the bytes of a file stream to their end. *)
Definition drain (ref : nat) (w : World) : World :=
  on_heap (<[ref := mkFileStream (fs_filename (heap w !!! ref))
                      (fs_listeners (heap w !!! ref)) true]>) w.

(** The producer announces a file, the consumer pulls. *)
Inductive op := WriteFile (filestream : nat) | Pull.

Definition emitted (ops : list op) : list nat :=
  omap (fun o => match o with WriteFile f => Some f | Pull => None end) ops.

(** The file streams among what the pulls yielded. *)
Definition items (rs : list pulled) : list nat :=
  omap (fun r => match r with Item f => Some f | _ => None end) rs.

(** Play the operations in order and collect what each pull yields. *)
Fixpoint play (ops : list op) : M World (list pulled) :=
  match ops with
  | [] => ret []
  | WriteFile f :: ops' => writeFile f;;; play ops'
  | Pull :: ops' =>
      let* r := read in
      let* rs := play ops' in
      ret (r :: rs)
  end.

(** [n] pulls in a row. *)
Fixpoint pulls (n : nat) : M World (list pulled) :=
  match n with
  | 0 => ret []
  | S n' =>
      let* r := read in
      let* rs := pulls n' in
      ret (r :: rs)
  end.

(** An [Upstream] as [acquireUpstream] sets it up at time [now], with
    no file stream in the store yet. *)
Definition acquired (fieldName : value) (now : Z) : World :=
  mkWorld ∅
    (set_listeners (fun ls => ls ++ [mkListener true onUpstreamError])
       (set_fieldName fieldName (new defaults now)))
    now [].

(** What the producer, the consumer, the clock and the request can do
    to an [Upstream]: announce a file ([writeFile]), pull ([read]), let
    time pass until [t], signal the end ([noMoreFiles]), fail
    ([fatalIncomingError]), and raise an error on a file stream. *)
Inductive action :=
| Announce (filestream : nat)
| Consume
| Elapse (t : Z)
| Finish
| Abort (err : error)
| FileFails (ref : nat) (err : error).

(** What a course of actions comes to: what the pulls yielded, the file
    streams that were announced while the sequence had not ended, both
    oldest first, and the store. *)
Record account := mkAccount {
  handed : list pulled;
  in_time : list nat;
  world : World
}.

(** One action.  A call that throws is over where it threw, and the
    store is as it was then. *)
Definition act (a : action) (w : World) : account :=
  match a with
  | Announce f =>
      mkAccount [] (if ended (self w) then [] else [f]) (state_of (writeFile f w))
  | Consume =>
      match read w with
      | Returned r w' => mkAccount [r] [] w'
      | Thrown _ w' => mkAccount [] [] w'
      end
  | Elapse t => mkAccount [] [] (state_of (elapse t w))
  | Finish => mkAccount [] [] (state_of (noMoreFiles w))
  | Abort err => mkAccount [] [] (state_of (fatalIncomingError err w))
  | FileFails ref err => mkAccount [] [] (state_of (emit_on_file ref err w))
  end.

Fixpoint perform (acts : list action) (w : World) : account :=
  match acts with
  | [] => mkAccount [] [] w
  | a :: rest =>
      let r1 := act a w in
      let r2 := perform rest (world r1) in
      mkAccount (handed r1 ++ handed r2) (in_time r1 ++ in_time r2) (world r2)
  end.

(** The file streams announced in a course of actions. *)
Definition announced (acts : list action) : list nat :=
  omap (fun a => match a with Announce f => Some f | _ => None end) acts.

(** *** Notions used to state the properties *)

(** A call leaves the queue alone and does not reopen an ended
    sequence, whether it returns or throws. *)
Definition keeps_queue {A} (m : M World A) : Prop :=
  ∀ w, buffer (self (state_of (m w))) = buffer (self w) ∧
       (ended (self w) = true → ended (self (state_of (m w))) = true).

(** The fields of an [Upstream] that the loop over [_files] leaves
    alone. *)
Definition frame (u : Upstream) :=
  (opts u, fieldName u, connectedTo u, timeouts u, _connected u,
   buffer u, ended u, listeners u).

(** A stream in the store that only listeners registered for good are
    left on. *)
Definition settled (h : gmap nat FileStream) (r : nat) : Prop :=
  ∃ x, h !! r = Some x ∧ Forall (fun l => once l = false) (fs_listeners x).

Definition cancelled_copy (f : file) : file := mkFile (stream f) cancelled.

(** Everything that [fatalIncomingError] changes is as it leaves it:
    the timers are cleared, the sequence is ended, every recorded file
    is cancelled, and only listeners registered for good are left on
    the recorded file streams and on the [Upstream]. *)
Definition quiescent (w : World) : Prop :=
  timeouts (self w) = mkTimers None None ∧
  ended (self w) = true ∧
  Forall (fun l => once l = false) (listeners (self w)) ∧
  Forall (fun f => file_status f = cancelled ∧ settled (heap w) (stream f))
         (_files (self w)).

(** An error raised on each of the recorded file streams in turn, as
    far as the first one that nothing listens to: the listeners that hear
    it, and whether every stream had one. *)
Fixpoint raised_on_files (h : gmap nat FileStream) (e : error) (fs : list file)
  : list observation * bool :=
  match fs with
  | [] => ([], true)
  | f :: fs' =>
      match fs_listeners (h !!! stream f) with
      | [] => ([], false)
      | ls =>
          let r := raised_on_files h e fs' in
          (map (fun l => Heard (OnFile (stream f)) (callback l) e) ls ++ r.1, r.2)
      end
  end.

(** The same, followed by the error raised on the [Upstream] itself when
    every recorded stream had a listener: the listeners that hear it, and
    whether the recorded streams and the [Upstream] all had one. *)
Definition raised_again (e : error) (w : World) : list observation * bool :=
  let r := raised_on_files (heap w) e (_files (self w)) in
  if r.2
  then (r.1 ++ map (fun l => Heard OnUpstream (callback l) e) (listeners (self w)),
        negb (bool_decide (listeners (self w) = [])))
  else r.

(** *** [upload] and the receiver it is given *)

(** What a receiver passes along with ['finish'] or ['error']. *)
Inductive payload (R : Type) :=
| AnArray (results : list R)
| NotAnArray.
Arguments AnArray {R} results.
Arguments NotAnArray {R}.

(** The two listeners [upload] registers, each for the callback [cb] it
    was given. *)
Inductive sink_handler :=
| allFilesUploaded (cb : nat)
| unableToUpload (cb : nat)
| other_listener (tag : nat).

(** An invocation of a callback given to [upload]. *)
Record invocation (R : Type) := mkInvocation {
  callee : nat;
  arg_err : option error;
  arg_results : option (list R)
}.
Arguments mkInvocation {R} callee arg_err arg_results.
Arguments callee {R} i.
Arguments arg_err {R} i.
Arguments arg_results {R} i.

(** A receiver ([stream.Writable]): its ['finish'] and ['error']
    listeners, each with its [once] flag, whether the [Upstream] is
    piped into it, and the callback invocations so far. *)
Record Receiver (R : Type) := mkReceiver {
  on_finish : list (bool * sink_handler);
  on_error : list (bool * sink_handler);
  piped : bool;
  invocations : list (invocation R)
}.
Arguments mkReceiver {R} on_finish on_error piped invocations.
Arguments on_finish {R} r.
Arguments on_error {R} r.
Arguments piped {R} r.
Arguments invocations {R} r.

Section Upload.
Context {R : Type}.

(** [_.isArray(files) ? files : []] *)
Definition ensure_array (files : payload R) : list R :=
  match files with AnArray l => l | NotAnArray => [] end.

Definition invoke (h : sink_handler) (err : option error) (files : payload R)
  : list (invocation R) :=
  match h, err with
  | allFilesUploaded cb, _ => [mkInvocation cb None (Some (ensure_array files))]
  | unableToUpload cb, Some e =>
      let files := ensure_array files in [mkInvocation cb (Some e) None]
  | _, _ => []
  end.

Definition persistent (ls : list (bool * sink_handler)) : list (bool * sink_handler) :=
  filter (fun l => l.1 = false) ls.

(** [upload(receiver__, cb)] *)
Definition upload (cb : nat) (r : Receiver R) : Receiver R :=
  mkReceiver (on_finish r ++ [(true, allFilesUploaded cb)])
             (on_error r ++ [(true, unableToUpload cb)])
             true
             (invocations r).

(** The receiver emits ['finish'] *)
Definition emit_finish (files : payload R) (r : Receiver R) : Receiver R :=
  mkReceiver (persistent (on_finish r)) (on_error r) (piped r)
    (invocations r ++ concat (map (fun l => invoke l.2 None files) (on_finish r))).

(** The receiver emits ['error']; with no listener that is a [throw]. *)
Definition emit_error (err : error) (files : payload R) : M (Receiver R) unit :=
  fun r =>
    match on_error r with
    | [] => Thrown err r
    | ls => Returned tt
        (mkReceiver (on_finish r) (persistent ls) (piped r)
           (invocations r ++ concat (map (fun l => invoke l.2 (Some err) files) ls)))
    end.
End Upload.

End Upstream.

(** ** [lib/Parser/index.js] *)

Module Parser.

Import Js.

(** The fields of a [Parser] that [acquireUpstream] and the listener it
    installs use; [next_calls] and [warnings] list the calls of
    [this.next] and the ['warning'] events, oldest first. *)
Record Parser := mkParser {
  upstreams : list Upstream.Upstream;
  _hasPassedControlToApp : bool;
  next_calls : list error;
  warnings : list string
}.

(** [_.find(this.upstreams, { fieldName: fieldName })], as the position
    of the first match. *)
Fixpoint find_index (fieldName : value) (us : list Upstream.Upstream) : option nat :=
  match us with
  | [] => None
  | u :: rest =>
      if bool_decide (Upstream.fieldName u = fieldName) then Some 0
      else S <$> find_index fieldName rest
  end.

(** [acquireUpstream] at time [now]; the result is the position of the
    returned [Upstream] in [this.upstreams]. *)
Definition acquireUpstream (fieldName : value) (now : Z) (p : Parser) : nat * Parser :=
  match find_index fieldName (upstreams p) with
  | Some i => (i, p)
  | None =>
      let newUpstream := Upstream.new Upstream.defaults now in
      let newUpstream := Upstream.set_fieldName fieldName newUpstream in
      let newUpstream :=
        Upstream.set_listeners
          (fun ls => ls ++ [Upstream.mkListener true Upstream.onUpstreamError])
          newUpstream in
      (length (upstreams p),
       mkParser (upstreams p ++ [newUpstream]) (_hasPassedControlToApp p)
                (next_calls p) (warnings p))
  end.

(** The listener [acquireUpstream] registers on a new [Upstream]. *)
Definition onUpstreamError (err : error) (p : Parser) : Parser :=
  if negb (_hasPassedControlToApp p)
  then mkParser (upstreams p) (_hasPassedControlToApp p) (next_calls p ++ [err]) (warnings p)
  else mkParser (upstreams p) (_hasPassedControlToApp p) (next_calls p)
         (warnings p ++ ["Error in incoming multipart form upload ::" +:+ message err]).

End Parser.

(** ** [lib/Parser/defaults.js] *)

Module Defaults.

(** The options a caller may pass; an option left out is [undefined]. *)
Record options := mkOptions {
  maxTimeToWaitForFirstFile : option Z;
  maxTimeToBuffer : option Z
}.

(** [_.defaults(options, { key: value })] for one key: the value is
    assigned only where the option is [undefined]. *)
Definition default_to (value : Z) (given : option Z) : option Z :=
  match given with
  | Some v => Some v
  | None => Some value
  end.

(** The exported function: [options = options || {}], then the defaults. *)
Definition applyDefaultOptions (given : option options) : options :=
  let given := match given with Some o => o | None => mkOptions None None end in
  mkOptions (default_to 500 (maxTimeToWaitForFirstFile given))
            (default_to 2500 (maxTimeToBuffer given)).

End Defaults.

(** ** Notions for the further properties of the middleware *)

Module Arrival.

Import Js Middleware.

(** A file part with the id it is given on arrival. *)
Definition with_id (i : nat) (p : FieldStream) : FieldStream :=
  mkPart (name p) (filename p) (Some i).

(** What an event adds to the file parts that have arrived. *)
Definition arriving (ev : event) : list FieldStream :=
  match ev with
  | Part p => if isFile p then [p] else []
  | _ => []
  end.

(** The file parts among the events, in order of arrival. *)
Definition file_parts (evs : list event) : list FieldStream :=
  concat (map arriving evs).

(** The parts of field [key] among [ps]. *)
Definition of_field (key : string) (ps : list FieldStream) : list FieldStream :=
  filter (fun p => name p = key) ps.

(** A part as [receiveFile] has taken it in, before it looks at
    [anyFilesDetected]: stamped with the next id and written to the global
    stream, with the watched streams [watched] and the allocation counter
    [allocated] that its lookup and write leave. *)
Definition arrived (p : FieldStream) (watched : gmap string UploadStream)
    (allocated : nat) (s : Session) : Session :=
  mkSession (body s) (us_write (with_id (_nextFileId s) p) (files s)) watched
    (S (_nextFileId s)) (hasControl s) (anyFilesDetected s) (reqClosed s)
    (maxWaitTimer s) allocated (next_calls s) (log s).

(** The last statement of [receiveFile]. *)
Definition detected (s : Session) : Session :=
  if anyFilesDetected s then s else receiveFirstFile s.

(** Each watched stream holds the parts of its field that are on the
    global stream, no watched field is named like a property of
    [Object.prototype], and every part on the global stream whose field
    is not so named has its field watched. *)
Definition mirrored (s : Session) : Prop :=
  (∀ k u, _watchedFields s !! k = Some u →
          inherited k = false ∧
          us_written u = of_field k (us_written (files s))) ∧
  (∀ p, p ∈ us_written (files s) → inherited (name p) = false →
        is_Some (_watchedFields s !! name p)).

(** Where a request stands: either the middleware still has control,
    [next] was not called, no file was detected and the request is not
    flagged as closed; or control has passed, and [next] was called
    once. *)
Definition control_state (s : Session) : Prop :=
  (hasControl s = true ∧ next_calls s = [] ∧
   anyFilesDetected s = false ∧ reqClosed s = false) ∨
  (hasControl s = false ∧ ∃ arg, next_calls s = [arg]).

(** The wait timer is no longer pending once [next] was called without
    an error. *)
Definition timer_cleared (s : Session) : Prop :=
  next_calls s = [None] → maxWaitTimer s = false.

(** An event other than the completion of the request. *)
Definition not_completion (ev : event) : Prop :=
  match ev with RequestComplete _ => False | _ => True end.

End Arrival.

(** * Properties *)

(** ** The middleware: passing control, the body, [req.file] *)

Section MiddlewareProperties.

Import Js Middleware Arrival.

(** *** Plain objects *)

Lemma get_property_cases {A} (m : gmap string A) k :
  (∃ a, m !! k = Some a ∧ get_property m k = Own a) ∨
  (m !! k = None ∧ inherited k = true ∧ get_property m k = Inherited k) ∨
  (m !! k = None ∧ inherited k = false ∧ get_property m k = Undefined).
Proof.
  unfold get_property. destruct (m !! k) as [a|]; [left; eauto|].
  destruct (inherited k); [right; left|right; right]; done.
Qed.

Lemma set_string_property_insert k v (m : gmap string string) :
  k ≠ "__proto__" ∨ is_Some (m !! k) →
  set_string_property k v m = <[k := v]> m.
Proof.
  unfold set_string_property. intros [Hk|[x Hx]].
  - destruct (m !! k); [done|]. by rewrite bool_decide_eq_false_2.
  - by rewrite Hx.
Qed.

Lemma set_string_property_proto v (m : gmap string string) :
  m !! "__proto__" = None → set_string_property "__proto__" v m = m.
Proof. unfold set_string_property. by intros ->. Qed.

Lemma set_string_property_other k v (m : gmap string string) k' :
  k' ≠ k → set_string_property k v m !! k' = m !! k'.
Proof.
  intros Hk. unfold set_string_property.
  destruct (m !! k); [by rewrite lookup_insert_ne|].
  case_bool_decide; [done|]. by rewrite lookup_insert_ne.
Qed.

(** *** [req.file] and [receiveFile], case by case *)

Lemma validFieldName_spec v :
  validFieldName v = isString v || isFinite v.
Proof. destruct v as [| | |[]| |]; reflexivity. Qed.

Lemma req_file_valid v s :
  validFieldName v = true →
  req_file v s =
    if reqClosed s then Returned (ANoopStream (fresh s)) (set_fresh S s)
    else match get_property (_watchedFields s) (to_string v) with
         | Own u => Returned (AnUploadStream (us_ref u)) s
         | Inherited k => Returned (AnInherited k) s
         | Undefined =>
             let u := us_set_fieldName v (new_UploadStream (fresh s)) in
             Returned (AnUploadStream (us_ref u))
               (set_watchedFields (insert (to_string v) u) (set_fresh S s))
         end.
Proof.
  intros Hv. unfold req_file, bind, get, modify, ret. rewrite Hv. simpl.
  destruct (reqClosed s); [done|].
  destruct (get_property (_watchedFields s) (to_string v)); done.
Qed.

Lemma receiveFile_eq p s :
  let p' := with_id (_nextFileId s) p in
  let s1 := set_files (us_write p') (set_nextFileId S s) in
  receiveFile p s =
    if reqClosed s then Returned tt (detected (set_fresh S s1))
    else match get_property (_watchedFields s) (name p) with
         | Own u =>
             Returned tt
               (detected (set_watchedFields (alter (us_write p') (name p)) s1))
         | Inherited k => Thrown not_a_function s1
         | Undefined =>
             let u := us_set_fieldName (VString (name p)) (new_UploadStream (fresh s)) in
             Returned tt
               (detected
                  (set_watchedFields (alter (us_write p') (name p))
                     (set_watchedFields (insert (name p) u) (set_fresh S s1))))
         end.
Proof.
  cbv zeta. unfold receiveFile, req_file, write_to, bind, get, modify, ret, throw; simpl.
  destruct (reqClosed s); simpl.
  - unfold detected; simpl. by destruct (anyFilesDetected s).
  - destruct (get_property (_watchedFields s) (name p)); simpl; [| done |];
      unfold detected; simpl; by destruct (anyFilesDetected s).
Qed.

(** A file part leaves the session as [receiveFile] took the part in,
    and, unless the write to the field's stream threw, as the first file
    passes control. *)
Lemma part_shape p s :
  isFile p = true →
  ∃ wf fr, handle_event (Part p) s = arrived p wf fr s ∨
           handle_event (Part p) s = detected (arrived p wf fr s).
Proof.
  intros Hp. cbn [handle_event]. unfold receiveFieldStream. rewrite Hp, receiveFile_eq.
  cbv zeta. destruct (reqClosed s);
    [|destruct (get_property (_watchedFields s) (name p))]; cbn [state_of].
  - exists (_watchedFields s), (S (fresh s)). by right.
  - eexists _, (fresh s). right. reflexivity.
  - exists (_watchedFields s), (fresh s). by left.
  - eexists _, (S (fresh s)). right. reflexivity.
Qed.

Lemma part_returns p s :
  isFile p = true → inherited (name p) = false →
  ∃ wf fr, handle_event (Part p) s = detected (arrived p wf fr s).
Proof.
  intros Hp Hn. cbn [handle_event]. unfold receiveFieldStream. rewrite Hp, receiveFile_eq.
  cbv zeta. destruct (reqClosed s); cbn [state_of].
  - exists (_watchedFields s), (S (fresh s)). done.
  - destruct (get_property_cases (_watchedFields s) (name p))
      as [(u & _ & ->)|[(_ & Hi & _)|(_ & _ & ->)]]; cbn [state_of].
    + eexists _, (fresh s). reflexivity.
    + congruence.
    + eexists _, (S (fresh s)). reflexivity.
Qed.

Lemma part_not_file p s : isFile p = false → handle_event (Part p) s = s.
Proof. intros Hp. cbn [handle_event]. unfold receiveFieldStream. by rewrite Hp. Qed.

Lemma passControl_keeps err s :
  files (passControl err s) = files s ∧
  _watchedFields (passControl err s) = _watchedFields s ∧
  _nextFileId (passControl err s) = _nextFileId s ∧
  reqClosed (passControl err s) = reqClosed s ∧
  anyFilesDetected (passControl err s) = anyFilesDetected s ∧
  body (passControl err s) = body s ∧
  log (passControl err s) = log s ∧
  fresh (passControl err s) = fresh s.
Proof. unfold passControl. destruct (hasControl s); [|done]. by destruct err. Qed.

Lemma detected_keeps s :
  files (detected s) = files s ∧
  _watchedFields (detected s) = _watchedFields s ∧
  _nextFileId (detected s) = _nextFileId s ∧
  reqClosed (detected s) = reqClosed s ∧
  body (detected s) = body s ∧
  log (detected s) = log s ∧
  fresh (detected s) = fresh s.
Proof.
  unfold detected. destruct (anyFilesDetected s); [done|]. unfold receiveFirstFile.
  destruct (passControl_keeps None (set_anyFilesDetected true s))
    as (-> & -> & -> & -> & _ & -> & -> & ->).
  done.
Qed.

(** *** [next] is called at most once *)

Lemma passControl_budget err s : budget (passControl err s) ≤ budget s.
Proof.
  unfold passControl, budget.
  destruct (hasControl s) eqn:Hc; simpl; [|rewrite Hc; lia].
  destruct err; simpl; rewrite length_app; simpl; lia.
Qed.

Lemma detected_budget s : budget (detected s) ≤ budget s.
Proof.
  unfold detected. destruct (anyFilesDetected s); [done|].
  unfold receiveFirstFile. etrans; [apply passControl_budget|reflexivity].
Qed.

Lemma req_file_budget v s : budget (state_of (req_file v s)) = budget s.
Proof.
  unfold req_file, bind, get, modify, ret, throw.
  destruct (negb (validFieldName v)); [reflexivity|].
  destruct (reqClosed s); [reflexivity|].
  destruct (get_property (_watchedFields s) (to_string v)); reflexivity.
Qed.

Lemma handle_event_budget ev s : budget (handle_event ev s) ≤ budget s.
Proof.
  destruct ev as [p|f v| |err|err|v].
  - destruct (isFile p) eqn:Hp; [|by rewrite part_not_file].
    destruct (part_shape p s Hp) as (wf & fr & [-> | ->]); [reflexivity|].
    etrans; [apply detected_budget|reflexivity].
  - simpl. unfold onField. destruct (anyFilesDetected s); reflexivity.
  - simpl. unfold giveUpOnFiles. destruct (maxWaitTimer s); [|reflexivity]. simpl.
    destruct (anyFilesDetected s); simpl; [reflexivity|].
    etrans; [apply (passControl_budget None)|reflexivity].
  - simpl. unfold requestComplete.
    etrans; [apply passControl_budget|]. destruct err; reflexivity.
  - apply passControl_budget.
  - simpl. rewrite req_file_budget. reflexivity.
Qed.

Lemma run_budget evs s : budget (run evs s) ≤ budget s.
Proof.
  revert s. induction evs as [|ev evs IH]; intros s; simpl; [reflexivity|].
  etrans; [apply IH|apply handle_event_budget].
Qed.

(** The set-up with a decoder that called back at once. *)
Lemma setup_early_unfold body0 err :
  setup body0 (Some err) =
    mkSession body0 (us_end err (new_UploadStream 0)) (us_end err <$> ∅) 0
      false false false true 1 [None]
      (match err with Some e => [RequestStreamError e] | None => [] end).
Proof. destruct err; reflexivity. Qed.

Lemma setup_early body0 err :
  setup body0 (Some err) =
    mkSession body0 (us_end err (new_UploadStream 0)) ∅ 0 false false false true 1 [None]
      (match err with Some e => [RequestStreamError e] | None => [] end).
Proof. rewrite setup_early_unfold. by rewrite fmap_empty. Qed.

Lemma setup_budget body0 early : budget (setup body0 early) = 1.
Proof. destruct early as [err|]; [by rewrite setup_early|done]. Qed.

(** C3. Whatever the decoder, the wait timer, the body parser and the
    application do to a request, and in whatever order (parts, text
    fields, the timer elapsing, the request completing with or without
    an error, during set-up or after it), [next] is invoked at most
    once. *)
Theorem next_called_at_most_once
    (body0 : gmap string string) (early : option (option error)) (evs : list event) :
  length (next_calls (run evs (setup body0 early))) ≤ 1.
Proof.
  pose proof (run_budget evs (setup body0 early)) as H.
  rewrite setup_budget in H. unfold budget in H.
  destruct (hasControl (run evs (setup body0 early))); lia.
Qed.

(** *** Text fields and the first file *)

Lemma run_app evs1 evs2 s : run (evs1 ++ evs2) s = run evs2 (run evs1 s).
Proof. unfold run. apply foldl_app. Qed.

Lemma run_text_fields kvs s :
  anyFilesDetected s = false →
  run (text_fields kvs) s = set_body (assign_all kvs) s.
Proof.
  revert s. induction kvs as [|[k v] kvs IH]; intros s Hs; simpl.
  - destruct s; reflexivity.
  - rewrite IH.
    + unfold onField. rewrite Hs. destruct s; reflexivity.
    + unfold onField. rewrite Hs. destruct s; assumption.
Qed.

(** A part never touches [req.body]. *)
Lemma part_keeps_body p s : body (handle_event (Part p) s) = body s.
Proof.
  destruct (isFile p) eqn:Hp; [|by rewrite part_not_file].
  destruct (part_shape p s Hp) as (wf & fr & [-> | ->]); [done|].
  by destruct (detected_keeps (arrived p wf fr s)) as (_ & _ & _ & _ & -> & _).
Qed.

(** The first file part on a field that is not named like a property of
    [Object.prototype] passes control, without an error. *)
Lemma first_file_passes_control p s :
  isFile p = true → inherited (name p) = false →
  hasControl s = true → anyFilesDetected s = false →
  let s' := handle_event (Part p) s in
  next_calls s' = next_calls s ++ [None] ∧
  hasControl s' = false ∧ anyFilesDetected s' = true.
Proof.
  intros Hp Hn Hc Ha. cbv zeta.
  destruct (part_returns p s Hp Hn) as (wf & fr & ->).
  unfold detected, receiveFirstFile, passControl. simpl. rewrite Ha. simpl.
  rewrite Hc. done.
Qed.

(** Once control has passed, further parts do not call [next]. *)
Lemma later_parts_silent ps s :
  hasControl s = false →
  next_calls (run (map Part ps) s) = next_calls s ∧
  body (run (map Part ps) s) = body s.
Proof.
  revert s. induction ps as [|p ps IH]; intros s Hc; [done|].
  change (run (map Part (p :: ps)) s) with (run (map Part ps) (handle_event (Part p) s)).
  assert (hasControl (handle_event (Part p) s) = false ∧
          next_calls (handle_event (Part p) s) = next_calls s) as [Hc' Hn].
  { destruct (isFile p) eqn:Hp; [|by rewrite part_not_file].
    destruct (part_shape p s Hp) as (wf & fr & [-> | ->]); [done|].
    unfold detected, receiveFirstFile, passControl. simpl.
    destruct (anyFilesDetected s); simpl; rewrite Hc; done. }
  destruct (IH _ Hc') as [IH1 IH2].
  rewrite IH1, IH2, Hn, part_keeps_body. done.
Qed.

(** When the text fields all arrive before the first of the file parts,
    and that part's field is not named like a property of
    [Object.prototype], control passes exactly once, without an error,
    and [req.body] is then what the request body held before with those
    fields assigned, in order. *)
Lemma fields_before_files (body0 : gmap string string) (early : option (option error))
    (kvs : list (string * string)) (p : FieldStream) (ps : list FieldStream) :
  isFile p = true → inherited (name p) = false →
  let s := run (text_fields kvs ++ map Part (p :: ps)) (setup body0 early) in
  next_calls s = [None] ∧ body s = assign_all kvs body0.
Proof.
  intros Hp Hn. cbv zeta.
  rewrite run_app, run_text_fields by (destruct early; [by rewrite setup_early|done]).
  set (s0 := set_body (assign_all kvs) (setup body0 early)).
  destruct early as [err|].
  - assert (hasControl s0 = false) as Hc by (unfold s0; by rewrite setup_early).
    destruct (later_parts_silent (p :: ps) _ Hc) as [H1 H2].
    rewrite H1, H2. unfold s0. by rewrite setup_early.
  - change (run (map Part (p :: ps)) s0)
      with (run (map Part ps) (handle_event (Part p) s0)).
    destruct (first_file_passes_control p s0 Hp Hn) as (Hnc & Hc & _); [reflexivity..|].
    destruct (later_parts_silent ps _ Hc) as [H1 H2].
    rewrite H1, H2, Hnc, part_keeps_body. done.
Qed.

(** The ['field'] listener always assigns, late or not. *)
Lemma onField_body f v s :
  body (handle_event (Field f v) s) = set_string_property f v (body s).
Proof. simpl. unfold onField. destruct (anyFilesDetected s); reflexivity. Qed.

(** C1. A text field that arrives after the first file is still
    assigned into [req.body], the object the application was handed
    when control passed: with one field, one file and one late field,
    [next] has been called once when the late field arrives, and the
    body then gains the late field. *)
Theorem late_text_field_reaches_body :
  let before := run [Field "name" "bob"; file_part ("avatar", "a.png")] (init ∅) in
  let after := handle_event (Field "late" "x") before in
  next_calls before = [None] ∧
  body before = {["name" := "bob"]} ∧
  next_calls after = [None] ∧
  body after = <["late" := "x"]> (body before) ∧
  body after ≠ body before ∧
  log after = [LateTextParam "late"].
Proof.
  cbv zeta.
  assert (body (run [Field "name" "bob"; file_part ("avatar", "a.png")] (init ∅))
          = {["name" := "bob"]}) as Hb.
  { pose proof (fields_before_files ∅ None [("name", "bob")]
                  (mkPart "avatar" (Some "a.png") None) [] eq_refl eq_refl) as [_ H].
    etrans; [exact H|]. simpl.
    rewrite set_string_property_insert by (by left). apply insert_empty. }
  assert (body (handle_event (Field "late" "x")
                  (run [Field "name" "bob"; file_part ("avatar", "a.png")] (init ∅)))
          = <["late" := "x"]>
              (body (run [Field "name" "bob"; file_part ("avatar", "a.png")] (init ∅))))
    as Ha.
  { rewrite onField_body. apply set_string_property_insert. by left. }
  split_and!.
  - vm_compute. reflexivity.
  - exact Hb.
  - vm_compute. reflexivity.
  - exact Ha.
  - rewrite Ha, Hb. intros Heq.
    apply (f_equal (fun m : gmap string string => m !! "late")) in Heq.
    rewrite lookup_insert_eq, lookup_singleton_ne in Heq; [discriminate|].
    intros Hne; discriminate Hne.
  - vm_compute. reflexivity.
Qed.

(** *** A parse error at the end of the request *)

(** C5. When the decoder finishes with an error while the middleware
    still has control, [requestComplete] logs the error and ends the
    upload streams with it, and then calls [next] with no argument. *)
Theorem parse_error_not_given_to_next (e : error) (body0 : gmap string string) :
  let s := handle_event (RequestComplete (Some e)) (init body0) in
  next_calls s = [None] ∧
  log s = [RequestStreamError e] ∧
  us_ended (files s) = [Some e].
Proof. cbv zeta. split_and!; reflexivity. Qed.

(** *** The streams are told apart by their allocation numbers *)

Lemma refs_below_fresh_setup body0 early : refs_below_fresh (setup body0 early).
Proof.
  destruct early as [err|]; [rewrite setup_early|];
    (split; [simpl; lia|]); intros k u; simpl; by rewrite lookup_empty.
Qed.

Lemma refs_below_fresh_req_file v s :
  refs_below_fresh s → refs_below_fresh (state_of (req_file v s)).
Proof.
  intros [Hg Hw]. unfold req_file, bind, get, modify, ret, throw.
  destruct (negb (validFieldName v)); [done|].
  destruct (reqClosed s); simpl.
  - split; simpl; [lia|]. intros k u Hu. specialize (Hw k u Hu). lia.
  - destruct (get_property (_watchedFields s) (to_string v)) eqn:Hl; simpl; [done|done|].
    split; simpl; [lia|]. intros k u.
    rewrite lookup_insert. case_decide.
    + intros [= <-]. simpl. lia.
    + intros Hu. specialize (Hw k u Hu). lia.
Qed.

Lemma refs_below_fresh_passControl err s :
  refs_below_fresh s → refs_below_fresh (passControl err s).
Proof.
  unfold passControl. destruct (hasControl s); [|done]. by destruct err.
Qed.

Lemma refs_below_fresh_detected s :
  refs_below_fresh s → refs_below_fresh (detected s).
Proof.
  intros Hs. unfold detected. destruct (anyFilesDetected s); [done|].
  unfold receiveFirstFile. apply refs_below_fresh_passControl.
  destruct Hs; by split.
Qed.

Lemma refs_below_fresh_alter p k s :
  refs_below_fresh s →
  refs_below_fresh (set_watchedFields (alter (us_write p) k) s).
Proof.
  intros [Hg Hw]. split; [done|].
  intros k' u. simpl. rewrite lookup_alter. case_decide.
  - destruct (_watchedFields s !! k) as [u0|] eqn:Hu0; [|done].
    simpl. intros [= <-]. simpl. by apply (Hw _ _ Hu0).
  - apply Hw.
Qed.

Lemma refs_below_fresh_handle_event ev s :
  refs_below_fresh s → refs_below_fresh (handle_event ev s).
Proof.
  intros Hs. destruct ev as [p|f v| |err|err|v]; simpl.
  - unfold receiveFieldStream. destruct (isFile p); [|done].
    rewrite receiveFile_eq. cbv zeta.
    set (p' := with_id (_nextFileId s) p).
    assert (refs_below_fresh (set_files (us_write p') (set_nextFileId S s))) as H1
      by (destruct Hs; by split).
    destruct (reqClosed s); [|destruct (get_property (_watchedFields s) (name p))];
      cbn [state_of].
    + apply refs_below_fresh_detected. destruct H1 as [Hg Hw].
      split; simpl in *; [lia|]. intros k u Hu. specialize (Hw k u Hu). lia.
    + by apply refs_below_fresh_detected, refs_below_fresh_alter.
    + done.
    + apply refs_below_fresh_detected, refs_below_fresh_alter.
      destruct H1 as [Hg Hw]. split; simpl in *; [lia|]. intros k u.
      rewrite lookup_insert. case_decide.
      * intros [= <-]. simpl. lia.
      * intros Hu. specialize (Hw k u Hu). lia.
  - unfold onField. destruct Hs. destruct (anyFilesDetected s); by split.
  - unfold giveUpOnFiles. destruct (maxWaitTimer s); [|done]. simpl.
    destruct (anyFilesDetected s); simpl.
    + destruct Hs; by split.
    + apply refs_below_fresh_passControl. destruct Hs; by split.
  - unfold requestComplete. apply refs_below_fresh_passControl.
    destruct Hs as [Hg Hw]. split; [by destruct err|].
    intros k u. destruct err; simpl; rewrite lookup_fmap;
      (destruct (_watchedFields s !! k) as [u0|] eqn:Hu0; [|done]);
      simpl; intros [= <-]; simpl; by apply (Hw _ _ Hu0).
  - by apply refs_below_fresh_passControl.
  - by apply refs_below_fresh_req_file.
Qed.

Lemma refs_below_fresh_run evs : ∀ s,
  refs_below_fresh s → refs_below_fresh (run evs s).
Proof.
  induction evs as [|ev evs IH]; intros s Hs; [done|].
  apply IH. by apply refs_below_fresh_handle_event.
Qed.

(** *** The closed flag *)

Lemma giveUpOnFiles_keeps s :
  files (giveUpOnFiles s) = files s ∧
  _watchedFields (giveUpOnFiles s) = _watchedFields s ∧
  reqClosed (giveUpOnFiles s) = reqClosed s ∧
  body (giveUpOnFiles s) = body s ∧
  log (giveUpOnFiles s) = log s.
Proof.
  unfold giveUpOnFiles. destruct (maxWaitTimer s); [|done]. cbv zeta.
  destruct (negb (anyFilesDetected (set_maxWaitTimer false s))); [|done].
  destruct (passControl_keeps None (set_maxWaitTimer false s))
    as (H1 & H2 & _ & H3 & _ & H4 & H5 & _).
  by rewrite H1, H2, H3, H4, H5.
Qed.

Lemma onField_keeps f v s :
  files (onField f v s) = files s ∧
  _watchedFields (onField f v s) = _watchedFields s ∧
  reqClosed (onField f v s) = reqClosed s.
Proof. unfold onField. by destruct (anyFilesDetected s). Qed.

Lemma requestComplete_closes err s : reqClosed (requestComplete err s) = true.
Proof.
  unfold requestComplete.
  match goal with
  | |- context [passControl None ?x] =>
      destruct (passControl_keeps None x) as (_ & _ & _ & -> & _)
  end. done.
Qed.

Lemma reqClosed_stays ev s :
  reqClosed s = true → reqClosed (handle_event ev s) = true.
Proof.
  intros Hc. destruct ev as [p|f v| |err|err|v]; cbn [handle_event].
  - change (reqClosed (handle_event (Part p) s) = true).
    destruct (isFile p) eqn:Hp; [|by rewrite part_not_file].
    destruct (part_shape p s Hp) as (wf & fr & [-> | ->]); [done|].
    by destruct (detected_keeps (arrived p wf fr s)) as (_ & _ & _ & -> & _).
  - by destruct (onField_keeps f v s) as (_ & _ & ->).
  - by destruct (giveUpOnFiles_keeps s) as (_ & _ & -> & _).
  - apply requestComplete_closes.
  - by destruct (passControl_keeps err s) as (_ & _ & _ & -> & _).
  - unfold req_file, bind, get, modify, ret, throw.
    destruct (negb (validFieldName v)); [done|]. by rewrite Hc.
Qed.

Lemma reqClosed_run evs : ∀ s, reqClosed s = true → reqClosed (run evs s) = true.
Proof.
  induction evs as [|ev evs IH]; intros s Hs; [done|].
  apply IH. by apply reqClosed_stays.
Qed.

End MiddlewareProperties.

(** ** The parser's table of upstreams *)

Section ParserProperties.

Import Js Parser.

Lemma find_index_lookup v us i :
  find_index v us = Some i →
  ∃ u, us !! i = Some u ∧ Upstream.fieldName u = v.
Proof.
  revert i. induction us as [|u us IH]; intros i; simpl; [done|].
  case_bool_decide as Hu.
  - intros [= <-]. eauto.
  - destruct (find_index v us) as [j|]; [|done]. simpl. intros [= <-].
    destruct (IH j eq_refl) as (u' & ? & ?). eauto.
Qed.

Lemma find_index_snoc v us u :
  find_index v us = None → Upstream.fieldName u = v →
  find_index v (us ++ [u]) = Some (length us).
Proof.
  intros Hn Hu. induction us as [|u0 us IH]; simpl in *.
  - rewrite bool_decide_eq_true_2; done.
  - case_bool_decide; [done|].
    destruct (find_index v us); [done|]. rewrite IH; done.
Qed.

(** X17. [acquireUpstream] finds the [Upstream] of a field or creates it, and
    then finds the one it created. *)
Lemma acquireUpstream_find_or_create v now now' p :
  let r := acquireUpstream v now p in
  (∃ u, upstreams r.2 !! r.1 = Some u ∧ Upstream.fieldName u = v) ∧
  (∀ i, find_index v (upstreams p) = Some i → r = (i, p)) ∧
  (find_index v (upstreams p) = None →
     r.1 = length (upstreams p) ∧ length (upstreams r.2) = S (length (upstreams p))) ∧
  acquireUpstream v now' r.2 = r.
Proof.
  cbv zeta. destruct (find_index v (upstreams p)) as [i|] eqn:Hf.
  - assert (acquireUpstream v now p = (i, p)) as ->
      by (unfold acquireUpstream; rewrite Hf; done).
    simpl. split_and!.
    + by apply find_index_lookup.
    + by intros ? [= ->].
    + done.
    + unfold acquireUpstream. rewrite Hf. done.
  - set (u := Upstream.set_listeners
                (fun ls => ls ++ [Upstream.mkListener true Upstream.onUpstreamError])
                (Upstream.set_fieldName v (Upstream.new Upstream.defaults now))).
    assert (acquireUpstream v now p =
            (length (upstreams p),
             mkParser (upstreams p ++ [u]) (_hasPassedControlToApp p)
                      (next_calls p) (warnings p))) as ->
      by (unfold acquireUpstream; rewrite Hf; done).
    simpl. split_and!.
    + exists u. split; [|reflexivity].
      rewrite lookup_app_r by lia. rewrite Nat.sub_diag. reflexivity.
    + done.
    + intros _. rewrite length_app. simpl. split; [done|lia].
    + unfold acquireUpstream. simpl. rewrite (find_index_snoc v _ u); done.
Qed.

(** [acquireUpstream] takes any [fieldName]: it returns an [Upstream]
    with that [fieldName], found in the table or appended to it, and
    returns the same one when asked again. *)
Lemma acquireUpstream_any_fieldName v now now' p :
  let r := acquireUpstream v now p in
  ∃ u, upstreams r.2 !! r.1 = Some u ∧ Upstream.fieldName u = v ∧
       (r.2 = p ∨ (find_index v (upstreams p) = None ∧
                   r.1 = length (upstreams p) ∧
                   upstreams r.2 = upstreams p ++ [u])) ∧
       acquireUpstream v now' r.2 = r.
Proof.
  cbv zeta. destruct (find_index v (upstreams p)) as [i|] eqn:Hf.
  - assert (acquireUpstream v now p = (i, p)) as ->
      by (unfold acquireUpstream; rewrite Hf; done).
    simpl. destruct (find_index_lookup v _ i Hf) as (u & Hu & Hv).
    exists u. split_and!; [done|done|by left|].
    unfold acquireUpstream. rewrite Hf. done.
  - set (u := Upstream.set_listeners
                (fun ls => ls ++ [Upstream.mkListener true Upstream.onUpstreamError])
                (Upstream.set_fieldName v (Upstream.new Upstream.defaults now))).
    assert (acquireUpstream v now p =
            (length (upstreams p),
             mkParser (upstreams p ++ [u]) (_hasPassedControlToApp p)
                      (next_calls p) (warnings p))) as ->
      by (unfold acquireUpstream; rewrite Hf; done).
    simpl. exists u. split_and!.
    + rewrite lookup_app_r by lia. rewrite Nat.sub_diag. reflexivity.
    + reflexivity.
    + right. done.
    + unfold acquireUpstream. simpl. rewrite (find_index_snoc v _ u); done.
Qed.

End ParserProperties.

(** ** The per-field lookup *)

Section Lookup.

Import Js Middleware.

(** C8. [req.file(fieldName)]: a [fieldName] that is neither a string
    nor a finite number is a usage error, thrown at once and leaving the
    request as it was.  For a string or a finite number: while the
    request is flagged as closed the result is a fresh [NoopStream] and
    no stream is registered; while it is not, and the field is not named
    like a property of [Object.prototype] (or is registered already),
    the result is the stream registered for the field, which is the one
    already there if there is one (the request is then left as it was)
    and otherwise a new one, none of the streams there were, registered
    under the field with the [fieldName] as given and no file written to
    it; and asking again returns that same stream.  After set-up every
    stream of a request was allocated before the next one is, and a
    completion of the request sets the closed flag for good.
    [Parser.prototype.acquireUpstream] is the find-or-create part alone:
    it takes any [fieldName] and knows no closed request. *)
Theorem req_file_lookup (v : value) (s : Session) :
  (isString v = false → isFinite v = false →
     req_file v s = Thrown (usage_error v) s) ∧
  (isString v = true ∨ isFinite v = true →
     (reqClosed s = true →
        req_file v s = Returned (ANoopStream (fresh s)) (set_fresh S s) ∧
        _watchedFields (state_of (req_file v s)) = _watchedFields s) ∧
     (reqClosed s = false →
      inherited (to_string v) = false ∨ is_Some (_watchedFields s !! to_string v) →
        ∃ u s',
          req_file v s = Returned (AnUploadStream (us_ref u)) s' ∧
          _watchedFields s' !! to_string v = Some u ∧
          (∀ u0, _watchedFields s !! to_string v = Some u0 → u0 = u ∧ s' = s) ∧
          (_watchedFields s !! to_string v = None →
             u = us_set_fieldName v (new_UploadStream (fresh s)) ∧
             s' = set_watchedFields (insert (to_string v) u) (set_fresh S s) ∧
             (refs_below_fresh s →
                us_ref u ≠ us_ref (files s) ∧
                ∀ k u0, _watchedFields s !! k = Some u0 → us_ref u ≠ us_ref u0)) ∧
          req_file v s' = Returned (AnUploadStream (us_ref u)) s')) ∧
  (∀ body0 early evs, refs_below_fresh (run evs (setup body0 early))) ∧
  (∀ err evs, reqClosed (run evs (handle_event (RequestComplete err) s)) = true) ∧
  (∀ now now' p,
     let r := Parser.acquireUpstream v now p in
     ∃ u, Parser.upstreams r.2 !! r.1 = Some u ∧ Upstream.fieldName u = v ∧
          (r.2 = p ∨ (Parser.find_index v (Parser.upstreams p) = None ∧
                      r.1 = length (Parser.upstreams p) ∧
                      Parser.upstreams r.2 = Parser.upstreams p ++ [u])) ∧
          Parser.acquireUpstream v now' r.2 = r).
Proof.
  split_and!.
  - intros Hs Hf. unfold req_file. rewrite validFieldName_spec, Hs, Hf. reflexivity.
  - intros Hv.
    assert (validFieldName v = true) as Hvalid.
    { rewrite validFieldName_spec. destruct Hv as [-> | ->]; [done|apply orb_true_r]. }
    split; intros Hc.
    + rewrite (req_file_valid v s Hvalid), Hc. done.
    + intros Hk.
      destruct (get_property_cases (_watchedFields s) (to_string v))
        as [(u0 & Hl & Hg)|[(Hl & Hi & _)|(Hl & _ & Hg)]].
      * exists u0, s.
        assert (req_file v s = Returned (AnUploadStream (us_ref u0)) s) as Hr.
        { rewrite (req_file_valid v s Hvalid), Hc, Hg. done. }
        split_and!; [done|done| |by rewrite Hl|done].
        intros u1. rewrite Hl. intros [= ->]. done.
      * destruct Hk as [Hk|[x Hx]]; congruence.
      * set (u := us_set_fieldName v (new_UploadStream (fresh s))).
        exists u, (set_watchedFields (insert (to_string v) u) (set_fresh S s)).
        split_and!.
        -- rewrite (req_file_valid v s Hvalid), Hc, Hg. done.
        -- simpl. apply lookup_insert_eq.
        -- by rewrite Hl.
        -- intros _. split_and!; [done|done|].
           intros [Hfs Hw]. simpl. split; [lia|].
           intros k u0 Hu0. specialize (Hw k u0 Hu0). lia.
        -- rewrite (req_file_valid v _ Hvalid). simpl. rewrite Hc.
           unfold get_property. simpl. rewrite lookup_insert_eq. done.
  - intros body0 early evs. apply refs_below_fresh_run, refs_below_fresh_setup.
  - intros err evs. apply reqClosed_run. cbn [handle_event].
    apply requestComplete_closes.
  - intros now now' p. apply acquireUpstream_any_fieldName.
Qed.

Lemma req_file_lookup_witness :
  req_file VNull (init ∅) = Thrown (usage_error VNull) (init ∅) ∧
  (req_file (VNumber (NFinite "0")) (requestComplete None (init ∅))
     = Returned (ANoopStream 1) (set_fresh S (requestComplete None (init ∅))) ∧
   _watchedFields (state_of (req_file (VNumber (NFinite "0")) (requestComplete None (init ∅))))
     = _watchedFields (requestComplete None (init ∅))) ∧
  ∃ u s',
    req_file (VString "avatar") (init ∅) = Returned (AnUploadStream (us_ref u)) s' ∧
    _watchedFields s' !! "avatar" = Some u ∧
    us_fieldName u = Some (VString "avatar") ∧
    us_ref u ≠ us_ref (files (init ∅)) ∧
    req_file (VString "avatar") s' = Returned (AnUploadStream (us_ref u)) s'.
Proof.
  split_and!.
  - apply (req_file_lookup VNull (init ∅)); reflexivity.
  - apply (req_file_lookup (VNumber (NFinite "0")) (requestComplete None (init ∅)));
      [right|]; reflexivity.
  - apply (req_file_lookup (VNumber (NFinite "0")) (requestComplete None (init ∅)));
      [right|]; reflexivity.
  - destruct (req_file_lookup (VString "avatar") (init ∅)) as (_ & H & _).
    destruct (H (or_introl eq_refl)) as [_ H'].
    destruct (H' eq_refl (or_introl eq_refl)) as (u & s' & H1 & H2 & _ & H3 & H4).
    destruct (H3 (lookup_empty _)) as (Hu & _ & Hnew).
    exists u, s'. split_and!; [assumption|assumption|by rewrite Hu| |assumption].
    apply Hnew. split; [simpl; lia|]. intros k u0. simpl. by rewrite lookup_empty.
Defined.

(** [Parser.prototype.acquireUpstream] rejects nothing: for [null], which
    [req.file] refuses, it creates an [Upstream] named [null], registers
    it, and finds it again. *)
Lemma acquireUpstream_accepts_any_fieldName :
  let p := Parser.mkParser [] true [] [] in
  let r := Parser.acquireUpstream VNull 0 p in
  req_file VNull (init ∅) = Thrown (usage_error VNull) (init ∅) ∧
  r.1 = 0 ∧
  Upstream.fieldName <$> Parser.upstreams r.2 = [VNull] ∧
  Parser.acquireUpstream VNull 1 r.2 = r.
Proof. cbv zeta. split_and!; reflexivity. Qed.

End Lookup.

(** ** The [Upstream] *)

Section UpstreamProperties.

Import Js Upstream.

Lemma bind_returned {S A B} (m : M S A) (k : A → M S B) s b s' :
  bind m k s = Returned b s' →
  ∃ a s1, m s = Returned a s1 ∧ k a s1 = Returned b s'.
Proof. unfold bind. destruct (m s) as [a s1|]; [eauto|done]. Qed.

Lemma bind_eq_returned {S A B} (m : M S A) (k : A → M S B) s a s1 :
  m s = Returned a s1 → bind m k s = k a s1.
Proof. unfold bind. by intros ->. Qed.

Lemma bind_eq_thrown {S A B} (m : M S A) (k : A → M S B) s e s1 :
  m s = Thrown e s1 → bind m k s = Thrown e s1.
Proof. unfold bind. by intros ->. Qed.

Lemma after_emit_persistent ls :
  Forall (fun l => once l = false) (after_emit ls).
Proof.
  unfold after_emit. induction ls as [|l ls IH]; [constructor|].
  rewrite filter_cons. case_decide; [constructor|]; done.
Qed.

Lemma after_emit_id ls :
  Forall (fun l => once l = false) ls → after_emit ls = ls.
Proof.
  unfold after_emit. induction 1 as [|l ls Hl _ IH]; [done|].
  rewrite filter_cons, decide_True by done. by rewrite IH.
Qed.

(** *** The listener of [writeFile] *)

Lemma writeFile_heap ref w :
  heap (state_of (writeFile ref w)) =
    <[ref := fs_set_listeners (fun ls => ls ++ [mkListener true onFileStreamError])
               (heap w !!! ref)]> (heap w).
Proof.
  unfold writeFile, push, emit_on_self, bind, get, modify, ret, throw; simpl.
  destruct (ended (self w)); simpl; [|done].
  destruct (listeners (self w)); done.
Qed.

Lemma emit_on_file_heard ref e w :
  fs_listeners (heap w !!! ref) ≠ [] →
  emit_on_file ref e w =
    Returned tt
      (observe (map (fun l => Heard (OnFile ref) (callback l) e)
                    (fs_listeners (heap w !!! ref)))
         (on_heap (<[ref := fs_set_listeners after_emit (heap w !!! ref)]>) w)).
Proof.
  intros Hne. unfold emit_on_file, bind, get, modify, ret, throw.
  destruct (fs_listeners (heap w !!! ref)); done.
Qed.

Lemma emit_on_file_unheard ref e w :
  fs_listeners (heap w !!! ref) = [] → emit_on_file ref e w = Thrown e w.
Proof.
  intros Hnil. unfold emit_on_file, bind, get, modify, ret, throw. by rewrite Hnil.
Qed.

Lemma emit_on_self_heard e w :
  listeners (self w) ≠ [] →
  emit_on_self e w =
    Returned tt
      (observe (map (fun l => Heard OnUpstream (callback l) e) (listeners (self w)))
         (on_self (set_listeners after_emit) w)).
Proof.
  intros Hne. unfold emit_on_self, bind, get, modify, ret, throw.
  destruct (listeners (self w)); done.
Qed.

Lemma emit_on_self_unheard e w :
  listeners (self w) = [] → emit_on_self e w = Thrown e w.
Proof.
  intros Hnil. unfold emit_on_self, bind, get, modify, ret, throw. by rewrite Hnil.
Qed.

Lemma noMoreFiles_eq w : noMoreFiles w = Returned tt (on_self (set_ended true) w).
Proof. reflexivity. Qed.

(** [writeFile] puts its ['error'] listener on the file stream, and it
    is a one-shot listener: the next error raised on that stream, whether
    or not anything consumes the [Upstream], is heard by it and thrown
    nowhere; the listener is gone afterwards, which leaves the stream with
    the listeners it had before [writeFile] that were not one-shot. *)
Theorem writeFile_hears_next_error (ref : nat) (e : error) (w : World) :
  let w1 := state_of (writeFile ref w) in
  mkListener true onFileStreamError ∈ fs_listeners (heap w1 !!! ref) ∧
  ∃ w2, emit_on_file ref e w1 = Returned tt w2 ∧
        Heard (OnFile ref) onFileStreamError e ∈ trace w2 ∧
        fs_listeners (heap w2 !!! ref) = after_emit (fs_listeners (heap w !!! ref)).
Proof.
  cbv zeta.
  assert (fs_listeners (heap (state_of (writeFile ref w)) !!! ref) =
          fs_listeners (heap w !!! ref) ++ [mkListener true onFileStreamError]) as Hl.
  { rewrite writeFile_heap, lookup_total_insert_eq. done. }
  split.
  - rewrite Hl. apply elem_of_app. right. apply list_elem_of_singleton. done.
  - eexists. split; [apply emit_on_file_heard; rewrite Hl; by intros [_ ?]%app_eq_nil|].
    split.
    + simpl. rewrite Hl, map_app. rewrite !elem_of_app. right. right.
      simpl. apply list_elem_of_singleton. done.
    + simpl. rewrite lookup_total_insert_eq. simpl. rewrite Hl.
      unfold after_emit. rewrite filter_app, filter_cons, decide_False by done.
      rewrite filter_nil. apply app_nil_r.
Qed.

(** C10. A file stream is written to an [Upstream] that nothing pulls
    from, and an error is raised on it twice.  The listener of [writeFile]
    hears the first and is removed by it; the second finds no listener
    and is thrown, also when it is [fatalIncomingError] that raises it. *)
Theorem second_file_error_is_thrown :
  let e := mkError (Some "E_ABORT") "aborted" in
  let w1 := state_of (writeFile 7 (acquired (VString "avatar") 0)) in
  _connected (self w1) = false ∧ connectedTo (self w1) = [] ∧
  ∃ w2, emit_on_file 7 e w1 = Returned tt w2 ∧
        trace w2 = [Heard (OnFile 7) onFileStreamError e] ∧
        emit_on_file 7 e w2 = Thrown e w2 ∧
        completed (fatalIncomingError e w2) = false.
Proof.
  cbv zeta. split_and!; [reflexivity..|].
  eexists. split_and!; vm_compute; reflexivity.
Qed.

(** *** Pulling what was written *)

Lemma items_cons r rs : items (r :: rs) = items [r] ++ items rs.
Proof. by destruct r. Qed.

Lemma items_app rs1 rs2 : items (rs1 ++ rs2) = items rs1 ++ items rs2.
Proof. apply omap_app. Qed.

Lemma items_Item l : items (Item <$> l) = l.
Proof.
  induction l as [|c l IH]; [done|].
  change (items (Item <$> (c :: l))) with (c :: items (Item <$> l)). by rewrite IH.
Qed.

Lemma items_end k : items (replicate k EndOfSequence) = [].
Proof.
  induction k as [|k IH]; [done|].
  change (items (replicate (S k) EndOfSequence)) with (items (replicate k EndOfSequence)).
  exact IH.
Qed.

Lemma writeFile_live ref w :
  ended (self w) = false →
  ∃ w1, writeFile ref w = Returned tt w1 ∧
        buffer (self w1) = buffer (self w) ++ [ref] ∧
        ended (self w1) = false.
Proof.
  intros He. unfold writeFile, push, bind, get, modify, ret; simpl.
  rewrite He. eexists. split; [reflexivity|]. simpl. done.
Qed.

Lemma read_live w :
  ended (self w) = false →
  ∃ r w1, read w = Returned r w1 ∧
          items [r] ++ buffer (self w1) = buffer (self w) ∧
          ended (self w1) = false.
Proof.
  intros He. unfold read, _read, bind, get, modify, ret; simpl. rewrite He.
  destruct (buffer (self w)) as [|c rest] eqn:Hb; simpl.
  - exists Pending. eexists. split; [reflexivity|]. simpl. done.
  - exists (Item c). eexists. split; [reflexivity|]. simpl. done.
Qed.

Lemma read_at_end w :
  ended (self w) = true → buffer (self w) = [] → read w = Returned EndOfSequence w.
Proof.
  intros He Hb. unfold read, bind, get, modify, ret; simpl. rewrite He, Hb. done.
Qed.

(** While the sequence has not ended, what the pulls yielded so far and
    what is still queued are together what was queued before and what
    was written, in that order. *)
Lemma play_live ops w :
  ended (self w) = false →
  ∃ rs w1, play ops w = Returned rs w1 ∧
           items rs ++ buffer (self w1) = buffer (self w) ++ emitted ops ∧
           ended (self w1) = false.
Proof.
  revert w. induction ops as [|[f|] ops IH]; intros w He.
  - exists [], w. split_and!; [done| |done]. simpl. by rewrite app_nil_r.
  - destruct (writeFile_live f w He) as (w1 & Hw & Hb & He1).
    destruct (IH w1 He1) as (rs & w2 & Hp & Hi & He2).
    exists rs, w2. split_and!; [|  |done].
    + simpl. unfold bind. by rewrite Hw.
    + rewrite Hi, Hb. simpl. by rewrite <- app_assoc.
  - destruct (read_live w He) as (r & w1 & Hr & Hb & He1).
    destruct (IH w1 He1) as (rs & w2 & Hp & Hi & He2).
    exists (r :: rs), w2. split_and!; [| |done].
    + simpl. unfold bind, ret. by rewrite Hr, Hp.
    + rewrite items_cons.
      change (emitted (Pull :: ops)) with (emitted ops).
      rewrite <- app_assoc, Hi, app_assoc, Hb. done.
Qed.

(** After the end the queue is handed out in order, and then every pull
    yields the end of the sequence. *)
Lemma pulls_ended n w :
  ended (self w) = true →
  ∃ w1, pulls n w =
          Returned (take n (Item <$> buffer (self w)) ++
                    replicate (n - length (buffer (self w))) EndOfSequence) w1 ∧
        buffer (self w1) = drop n (buffer (self w)) ∧
        ended (self w1) = true.
Proof.
  revert w. induction n as [|n IH]; intros w He.
  - exists w. simpl. rewrite drop_0. done.
  - simpl. unfold bind at 1. unfold read, bind, get, modify, ret; simpl. rewrite He.
    destruct (buffer (self w)) as [|c rest] eqn:Hb; simpl.
    + destruct (IH w He) as (w1 & Hp & Hb1 & He1).
      rewrite Hp, Hb. simpl. rewrite Nat.sub_0_r, take_nil.
      exists w1. split_and!; [done| |done]. by rewrite Hb1, Hb, drop_nil.
    + set (w' := on_self (set_buffer (fun _ => rest)) w).
      destruct (IH w' He) as (w1 & Hp & Hb1 & He1).
      rewrite Hp. simpl. exists w1. done.
Qed.

(** With no passage of time: from a new [Upstream], let the producer
    write file streams and the consumer pull, interleaved in any way, and
    let the producer then signal that no more files come.  Once the
    consumer has pulled as often as files were written, the file streams
    it was handed are exactly those written, in the order written;
    nothing is queued any more and the next pull yields the end of the
    sequence. *)
Lemma writes_and_pulls_round_trip
    (h : gmap nat FileStream) (o : options) (now : Z) (ops : list op) :
  ∃ early late w',
    (let* early := play ops in
     noMoreFiles;;;
     let* late := pulls (length (emitted ops)) in
     let* last := read in
     ret (early, late, last)) (mkWorld h (new o now) now [])
      = Returned (early, late, EndOfSequence) w' ∧
    items early ++ items late = emitted ops ∧
    buffer (self w') = [].
Proof.
  set (w0 := mkWorld h (new o now) now []).
  destruct (play_live ops w0 eq_refl) as (early & w1 & Hp & Hi & He).
  simpl in Hi.
  set (w2 := on_self (set_ended true) w1).
  destruct (pulls_ended (length (emitted ops)) w2 eq_refl) as (w3 & Hl & Hb & He3).
  assert (length (buffer (self w1)) ≤ length (emitted ops)) as Hlen.
  { rewrite <- Hi, length_app. lia. }
  change (buffer (self w2)) with (buffer (self w1)) in *.
  rewrite drop_ge in Hb by done.
  eexists early, _, w3. split_and!.
  - unfold bind at 1. rewrite Hp.
    unfold bind at 1. unfold noMoreFiles, push, bind at 1, get, modify. fold w2.
    unfold bind at 1. rewrite Hl.
    unfold bind at 1. rewrite (read_at_end w3 He3 Hb). reflexivity.
  - rewrite <- Hi. f_equal.
    rewrite take_ge by (rewrite length_fmap, length_app; lia).
    rewrite items_app, items_Item, items_end. apply app_nil_r.
  - done.
Qed.

(** *** What the queue is left with, as time passes and errors occur *)

Lemma keeps_queue_ret {A} (a : A) : keeps_queue (ret a).
Proof. done. Qed.

Lemma keeps_queue_get : keeps_queue get.
Proof. done. Qed.

Lemma keeps_queue_bind {A B} (m : M World A) (k : A → M World B) :
  keeps_queue m → (∀ a, keeps_queue (k a)) → keeps_queue (bind m k).
Proof.
  intros Hm Hk w. unfold bind. destruct (Hm w) as [Hb He].
  destruct (m w) as [a w1|e w1]; simpl in *; [|done].
  destruct (Hk a w1) as [Hb' He']. split; [by rewrite Hb', Hb|].
  intros Hw. by apply He', He.
Qed.

Lemma keeps_queue_modify (f : World → World) :
  (∀ w, buffer (self (f w)) = buffer (self w) ∧
        (ended (self w) = true → ended (self (f w)) = true)) →
  keeps_queue (modify f).
Proof. intros Hf w. apply Hf. Qed.

Lemma keeps_queue_each {A} (f : A → M World unit) xs :
  (∀ x, keeps_queue (f x)) → keeps_queue (each f xs).
Proof.
  intros Hf. induction xs as [|x xs IH]; [apply keeps_queue_ret|].
  simpl. apply keeps_queue_bind; [apply Hf|done].
Qed.

Lemma keeps_queue_emit_on_file ref e : keeps_queue (emit_on_file ref e).
Proof.
  intros w. unfold emit_on_file, bind, get, modify, throw.
  by destruct (fs_listeners (heap w !!! ref)).
Qed.

Lemma keeps_queue_emit_on_self e : keeps_queue (emit_on_self e).
Proof.
  intros w. unfold emit_on_self, bind, get, modify, throw.
  by destruct (listeners (self w)).
Qed.

Lemma keeps_queue_noMoreFiles : keeps_queue noMoreFiles.
Proof. intros w. done. Qed.

Lemma keeps_queue_fatalIncomingError e : keeps_queue (fatalIncomingError e).
Proof.
  unfold fatalIncomingError.
  apply keeps_queue_bind; [by apply keeps_queue_modify|intros _].
  apply keeps_queue_bind; [apply keeps_queue_get|intros w0].
  apply keeps_queue_bind; [by apply keeps_queue_modify|intros _].
  apply keeps_queue_bind.
  { apply keeps_queue_each. intros [i f]. unfold cancel_file.
    apply keeps_queue_bind; [by apply keeps_queue_modify|intros _].
    apply keeps_queue_emit_on_file. }
  intros _. apply keeps_queue_bind; [apply keeps_queue_noMoreFiles|intros _].
  apply keeps_queue_emit_on_self.
Qed.

Lemma keeps_queue_fire_first_file t : keeps_queue (fire_first_file t).
Proof.
  unfold fire_first_file. apply keeps_queue_bind; [apply keeps_queue_get|intros w0].
  destruct (untilFirstFileTimer (timeouts (self w0))) as [d|]; [|apply keeps_queue_ret].
  destruct (d <=? t)%Z; [|apply keeps_queue_ret].
  apply keeps_queue_bind; [by apply keeps_queue_modify|intros _].
  apply keeps_queue_bind; [by apply keeps_queue_modify|intros _].
  unfold onFirstFileTimer. apply keeps_queue_bind; [apply keeps_queue_get|intros w1].
  case_bool_decide; [apply keeps_queue_fatalIncomingError|apply keeps_queue_ret].
Qed.

Lemma keeps_queue_fire_max_buffer t : keeps_queue (fire_max_buffer t).
Proof.
  unfold fire_max_buffer. apply keeps_queue_bind; [apply keeps_queue_get|intros w0].
  destruct (untilMaxBufferTimer (timeouts (self w0))) as [d|]; [|apply keeps_queue_ret].
  destruct (d <=? t)%Z; [|apply keeps_queue_ret].
  apply keeps_queue_bind; [by apply keeps_queue_modify|intros _].
  apply keeps_queue_bind; [by apply keeps_queue_modify|intros _].
  unfold onMaxBufferTimer. apply keeps_queue_bind; [apply keeps_queue_get|intros w1].
  case_bool_decide; [apply keeps_queue_fatalIncomingError|apply keeps_queue_ret].
Qed.

Lemma keeps_queue_elapse t : keeps_queue (elapse t).
Proof.
  unfold elapse. apply keeps_queue_bind; [apply keeps_queue_get|intros w0].
  apply keeps_queue_bind; [|intros _; by apply keeps_queue_modify].
  destruct (earlier _ _);
    (apply keeps_queue_bind; [|intros _]);
    (apply keeps_queue_fire_max_buffer || apply keeps_queue_fire_first_file).
Qed.

(** A file stream written after the end is recorded and not queued. *)
Lemma writeFile_ended f w :
  ended (self w) = true →
  buffer (self (state_of (writeFile f w))) = buffer (self w) ∧
  ended (self (state_of (writeFile f w))) = true.
Proof.
  intros He. unfold writeFile, push, emit_on_self, bind, get, modify, ret, throw; simpl.
  rewrite He. simpl. by destruct (listeners (self w)).
Qed.

Lemma act_queue a w :
  items (handed (act a w)) ++ buffer (self (world (act a w)))
    = buffer (self w) ++ in_time (act a w) ∧
  (ended (self w) = true →
     ended (self (world (act a w))) = true ∧ in_time (act a w) = []) ∧
  (ended (self w) = false → in_time (act a w) = announced [a]).
Proof.
  destruct a as [f| |t| |err|ref err]; cbn [act].
  - destruct (ended (self w)) eqn:He; cbn [handed in_time world];
      change (items []) with (@nil nat); cbn [app].
    + destruct (writeFile_ended f w He) as [-> ->]. by rewrite app_nil_r.
    + destruct (writeFile_live f w He) as (w1 & Hw & Hb & _).
      rewrite Hw. cbn [state_of]. rewrite Hb. done.
  - unfold read, _read, bind, get, modify, ret.
    destruct (ended (self w)) eqn:He, (buffer (self w)) as [|c rest] eqn:Hb;
      simpl; rewrite ?He, ?Hb, ?app_nil_r; done.
  - destruct (keeps_queue_elapse t w) as [Hb He]. simpl. rewrite Hb, app_nil_r.
    split_and!; [done| |done]. intros Hw. by split; [apply He|].
  - destruct (keeps_queue_noMoreFiles w) as [Hb He]. simpl. rewrite app_nil_r.
    done.
  - destruct (keeps_queue_fatalIncomingError err w) as [Hb He]. simpl.
    rewrite Hb, app_nil_r. split_and!; [done| |done]. intros Hw. by split; [apply He|].
  - destruct (keeps_queue_emit_on_file ref err w) as [Hb He]. simpl.
    rewrite Hb, app_nil_r. split_and!; [done| |done]. intros Hw. by split; [apply He|].
Qed.

Lemma announced_cons a acts : announced (a :: acts) = announced [a] ++ announced acts.
Proof. unfold announced. simpl. by destruct a. Qed.

Lemma perform_queue acts : ∀ w,
  items (handed (perform acts w)) ++ buffer (self (world (perform acts w)))
    = buffer (self w) ++ in_time (perform acts w) ∧
  (ended (self w) = true →
     ended (self (world (perform acts w))) = true ∧ in_time (perform acts w) = []) ∧
  (ended (self (world (perform acts w))) = false →
     in_time (perform acts w) = announced acts).
Proof.
  induction acts as [|a acts IH]; intros w.
  - simpl. rewrite app_nil_r. done.
  - cbn [perform handed in_time world].
    destruct (act_queue a w) as (Ha1 & Ha2 & Ha3).
    destruct (IH (world (act a w))) as (Hr1 & Hr2 & Hr3).
    split_and!.
    + rewrite items_app, <- app_assoc, Hr1, app_assoc, Ha1, <- app_assoc. done.
    + intros Hw. destruct (Ha2 Hw) as [He ->]. destruct (Hr2 He) as [He' ->]. done.
    + intros Hend. rewrite announced_cons, (Hr3 Hend). f_equal.
      apply Ha3. destruct (ended (self w)) eqn:Hw; [|done].
      destruct (Ha2 eq_refl) as [He _]. destruct (Hr2 He) as [He' _]. congruence.
Qed.

Lemma perform_app acts1 acts2 : ∀ w,
  perform (acts1 ++ acts2) w =
    mkAccount (handed (perform acts1 w) ++ handed (perform acts2 (world (perform acts1 w))))
              (in_time (perform acts1 w) ++ in_time (perform acts2 (world (perform acts1 w))))
              (world (perform acts2 (world (perform acts1 w)))).
Proof.
  induction acts1 as [|a acts1 IH]; intros w.
  - simpl. by destruct (perform acts2 w).
  - cbn [app perform handed in_time world]. rewrite IH. cbn [handed in_time world].
    by rewrite !app_assoc.
Qed.

(** Pulling as often as file streams are queued hands them all out, in
    order, whether or not the sequence has ended. *)
Lemma pulls_all : ∀ (q : list nat) (w : World),
  buffer (self w) = q →
  ∃ w', pulls (length q) w = Returned (Item <$> q) w' ∧ buffer (self w') = [].
Proof.
  induction q as [|c rest IH]; intros w Hq.
  - exists w. done.
  - cbn [length pulls]. unfold bind at 1.
    assert (∃ w1, read w = Returned (Item c) w1 ∧ buffer (self w1) = rest) as (w1 & -> & Hb).
    { unfold read, _read, bind, get, modify, ret. rewrite Hq.
      destruct (ended (self w)); simpl; eexists; (split; [reflexivity|done]). }
    destruct (IH w1 Hb) as (w' & Hp & Hb').
    unfold bind, ret. rewrite Hp. exists w'. done.
Qed.

(** C4. Whatever happens to an [Upstream] (file streams written to
    it, pulls, time passing and the timers running, the end signalled, a
    fatal error, errors raised on its file streams), what the consumer
    has been handed so far and what is still queued are together what
    was queued at the start and the file streams written while the
    sequence had not ended, in the order written, none missing and none
    twice; what is queued is handed out, in order, by as many further
    pulls, also to a consumer that starts only then.  Every file stream
    written before the sequence has ended is among them, and none that is
    written after it. *)
Theorem pull_consumer_receives_emitted (w : World) (before after : list action) :
  let r1 := perform before w in
  let r := perform (before ++ after) w in
  items (handed r) ++ buffer (self (world r)) = buffer (self w) ++ in_time r ∧
  (∃ w', pulls (length (buffer (self (world r)))) (world r)
           = Returned (Item <$> buffer (self (world r))) w' ∧
         buffer (self w') = []) ∧
  (ended (self (world r1)) = false → in_time r1 = announced before) ∧
  (ended (self (world r1)) = true → in_time r = in_time r1).
Proof.
  cbv zeta. split_and!.
  - apply perform_queue.
  - by apply pulls_all.
  - apply perform_queue.
  - intros He. rewrite perform_app. cbn [in_time].
    destruct (perform_queue after (world (perform before w))) as (_ & H & _).
    destruct (H He) as [_ ->]. apply app_nil_r.
Qed.

(** A file stream is written to the [Upstream] of field [avatar] and
    nothing pulls from it for 20 seconds: the buffering deadline fails the
    [Upstream] and ends the sequence.  A second file stream, written after
    that, is recorded and never queued: the consumer that attaches then
    is handed the first file stream and the end of the sequence. *)
Lemma handle_after_deadline_is_lost :
  let acts := [Announce 1; Elapse 20000; Announce 2; Consume; Consume; Consume] in
  let r := perform acts (acquired (VString "avatar") 0) in
  announced acts = [1; 2] ∧
  handed r = [Item 1; EndOfSequence; EndOfSequence] ∧
  in_time r = [1] ∧
  buffer (self (world r)) = [] ∧
  stream <$> _files (self (world r)) = [1; 2] ∧
  FatalLogged 20000 (max_buffer_timeout (self (acquired (VString "avatar") 0)))
    ∈ trace (world r).
Proof.
  cbv zeta. split_and!; [vm_compute; reflexivity..|].
  apply list_elem_of_lookup. exists 0. vm_compute. reflexivity.
Qed.

(** *** [upload] *)

Lemma persistent_snoc_once ls (h : sink_handler) :
  persistent (ls ++ [(true, h)]) = persistent ls.
Proof.
  unfold persistent. rewrite filter_app, filter_cons, decide_False by done.
  rewrite filter_nil. apply app_nil_r.
Qed.

Lemma emit_error_heard {R : Type} (r : Receiver R) err files :
  on_error r ≠ [] →
  emit_error err files r =
    Returned tt
      (mkReceiver (on_finish r) (persistent (on_error r)) (piped r)
         (invocations r ++
          concat (map (fun l => invoke l.2 (Some err) files) (on_error r)))).
Proof. unfold emit_error. by destruct (on_error r). Qed.

(** C9. After [upload(receiver, cb)]: when the receiver emits
    ['finish'], [cb] is called with no error and the array the
    receiver passed, or the empty array if it passed none; when the
    receiver emits ['error'], [cb] is called with that error; each of
    the two listeners is then gone, so that on a receiver nothing else
    listens to, a further ['error'] does not reach [cb] again. *)
Theorem upload_reports_to_callback {R : Type}
    (cb : nat) (r : Receiver R) (files : payload R) (results : list R) (err : error) :
  let r1 := upload cb r in
  let earlier_finish := concat (map (fun l => invoke l.2 None files) (on_finish r)) in
  let earlier_error := concat (map (fun l => invoke l.2 (Some err) files) (on_error r)) in
  invocations (emit_finish files r1) =
    invocations r ++ earlier_finish ++ [mkInvocation cb None (Some (ensure_array files))] ∧
  ensure_array (AnArray results) = results ∧
  ensure_array (@NotAnArray R) = [] ∧
  on_finish (emit_finish files r1) = persistent (on_finish r) ∧
  (∃ r2, emit_error err files r1 = Returned tt r2 ∧
         invocations r2 =
           invocations r ++ earlier_error ++ [mkInvocation cb (Some err) None] ∧
         on_error r2 = persistent (on_error r)) ∧
  (let fresh := mkReceiver [] [] false [] in
   ∃ r2, emit_error err files (upload cb fresh) = Returned tt r2 ∧
         invocations r2 = [mkInvocation cb (Some err) None] ∧
         emit_error err files r2 = Thrown err r2).
Proof.
  cbv zeta. split_and!.
  - simpl. rewrite map_app, concat_app. done.
  - done.
  - done.
  - simpl. apply persistent_snoc_once.
  - eexists. split.
    { apply emit_error_heard. simpl. by intros [_ ?]%app_eq_nil. }
    simpl. split.
    + rewrite map_app, concat_app. done.
    + apply persistent_snoc_once.
  - eexists. split; [reflexivity|]. done.
Qed.

(** *** The buffering deadline *)

(** Nothing in [Upstream.js] adds to [connectedTo]: the callback of the
    buffering timer raises its error whatever [_connected] says. *)
Lemma max_buffer_timer_ignores_pulls b w :
  connectedTo (self w) = [] →
  onMaxBufferTimer (on_self (set_connected b) w) =
    fatalIncomingError (max_buffer_timeout (self w)) (on_self (set_connected b) w).
Proof.
  intros Hc. unfold onMaxBufferTimer, bind at 1, get. simpl. rewrite Hc. done.
Qed.

Lemma read_keeps_connectedTo w :
  connectedTo (self (state_of (read w))) = connectedTo (self w).
Proof.
  unfold read, _read, bind, get, modify, ret; simpl.
  destruct (ended (self w)); simpl; destruct (buffer (self w)); done.
Qed.

(** C2. A pull does not cancel the buffering deadline.  An [Upstream]
    is set up at time 0 with the default options and a file is written
    to it; at 19999 ms a consumer pulls and is handed the file, which
    sets [_connected] and leaves the buffering timer pending for 20000;
    at 20000 ms the timer runs [fatalIncomingError] with its [ETIMEOUT]
    error all the same: the file is cancelled, it and the [Upstream]
    have the error raised on them, and the sequence is ended. *)
Theorem pull_does_not_cancel_buffer_deadline :
  let w1 := state_of ((writeFile 1;;; elapse 19999) (acquired (VString "avatar") 0)) in
  let w2 := state_of (read w1) in
  let w3 := state_of (elapse 20000 w2) in
  let e := max_buffer_timeout (self w2) in
  read w1 = Returned (Item 1) w2 ∧
  clock w2 = 19999%Z ∧
  _connected (self w2) = true ∧
  timeouts (self w2) = mkTimers None (Some 20000%Z) ∧
  elapse 20000 w2 = Returned tt w3 ∧
  code e = Some "ETIMEOUT" ∧
  trace w3 = [FatalLogged 20000 e;
              Heard (OnFile 1) onFileStreamError e;
              Heard OnUpstream onUpstreamError e] ∧
  _files (self w3) = [mkFile 1 cancelled] ∧
  ended (self w3) = true.
Proof. cbv zeta. split_and!; vm_compute; reflexivity. Qed.

(** *** A fatal incoming error *)

Lemma fatalIncomingError_unfold e w :
  fatalIncomingError e w =
    bind (each (cancel_file e) (imap pair (_files (self w))))
         (fun _ => bind noMoreFiles (fun _ => emit_on_self e))
         (observe [FatalLogged (clock w) e] (on_self (set_timeouts clear_all) w)).
Proof. reflexivity. Qed.

Lemma cancel_file_returned e i f w w' :
  cancel_file e (i, f) w = Returned tt w' →
  fs_listeners (heap w !!! stream f) ≠ [] ∧
  w' = observe (map (fun l => Heard (OnFile (stream f)) (callback l) e)
                    (fs_listeners (heap w !!! stream f)))
         (on_heap (<[stream f := fs_set_listeners after_emit (heap w !!! stream f)]>)
            (on_self (set_files (cancel i)) w)).
Proof.
  unfold cancel_file, bind at 1, modify at 1. simpl.
  destruct (fs_listeners (heap w !!! stream f)) as [|l ls] eqn:Hl.
  - rewrite emit_on_file_unheard by done. done.
  - rewrite emit_on_file_heard by (simpl; by rewrite Hl).
    intros [= <-]. simpl. rewrite Hl. done.
Qed.

Lemma imap_pair_shift (fs : list file) k :
  imap (fun i => pair (S i + k)) fs = imap (fun i => pair (i + S k)) fs.
Proof. apply imap_ext. intros i x _. f_equal. lia. Qed.

Lemma cancel_loop e fs : ∀ k w w',
  each (cancel_file e) (imap (fun i => pair (i + k)) fs) w = Returned tt w' →
  frame (self w') = frame (self w) ∧
  clock w' = clock w ∧
  (∀ j, _files (self w') !! j =
        if decide (k ≤ j < k + length fs)
        then cancelled_copy <$> _files (self w) !! j
        else _files (self w) !! j) ∧
  (∃ extra, trace w' = trace w ++ extra ∧
            ∀ f, f ∈ fs → ∃ h, Heard (OnFile (stream f)) h e ∈ extra) ∧
  (∀ r, settled (heap w) r ∨ r ∈ stream <$> fs → settled (heap w') r).
Proof.
  induction fs as [|f fs IH]; intros k w w'.
  - simpl. intros [= <-]. split_and!; [done|done| | |].
    + intros j. rewrite decide_False by lia. done.
    + exists []. rewrite app_nil_r. split; [done|]. intros f Hf. by apply elem_of_nil in Hf.
    + intros r [Hr|Hr]; [done|]. by apply elem_of_nil in Hr.
  - rewrite imap_cons. simpl each.
    intros (a & w1 & H1 & H2)%bind_returned. destruct a.
    change (0 + k) with k in H1.
    apply cancel_file_returned in H1 as [Hne ->].
    assert (imap ((fun i => pair (i + k)) ∘ S) fs = imap (fun i => pair (i + S k)) fs) as Heq
      by apply imap_pair_shift.
    rewrite Heq in H2. apply IH in H2 as (Hf & Hc & Hl & (extra & Ht & Hh) & Hs).
    split_and!.
    + rewrite Hf. done.
    + rewrite Hc. done.
    + intros j. rewrite Hl. simpl. unfold cancel.
      destruct (decide (j = k)) as [->|Hjk].
      * repeat case_decide; try lia. apply list_lookup_alter_eq.
      * repeat case_decide; try lia; by rewrite list_lookup_alter_ne.
    + eexists. split; [rewrite Ht; simpl; by rewrite <- app_assoc|].
      intros f' [->|Hf']%elem_of_cons.
      * destruct (fs_listeners (heap w !!! stream f)) as [|l ls]; [done|].
        exists (callback l). apply elem_of_app. left. simpl. apply elem_of_cons. by left.
      * destruct (Hh f' Hf') as [h Hin]. exists h. apply elem_of_app. by right.
    + intros r Hr. apply Hs. simpl.
      destruct (decide (r = stream f)) as [->|Hrf].
      * left. eexists. rewrite lookup_insert_eq. split; [done|].
        apply after_emit_persistent.
      * destruct Hr as [(x & Hx & Hp)|Hr].
        -- left. exists x. by rewrite lookup_insert_ne.
        -- rewrite fmap_cons in Hr. apply elem_of_cons in Hr as [?|Hr]; [done|]. by right.
Qed.

Lemma imap_pair_zero (fs : list file) :
  imap pair fs = imap (fun i => pair (i + 0)) fs.
Proof. apply imap_ext. intros i x _. f_equal. lia. Qed.

(** What a completed [fatalIncomingError] leaves behind. *)
Lemma fatalIncomingError_returned e w w' :
  fatalIncomingError e w = Returned tt w' →
  ∃ wa,
    each (cancel_file e) (imap (fun i => pair (i + 0)) (_files (self w)))
      (observe [FatalLogged (clock w) e] (on_self (set_timeouts clear_all) w))
      = Returned tt wa ∧
    listeners (self wa) ≠ [] ∧
    w' = observe (map (fun l => Heard OnUpstream (callback l) e) (listeners (self wa)))
           (on_self (set_listeners after_emit) (on_self (set_ended true) wa)).
Proof.
  rewrite fatalIncomingError_unfold, imap_pair_zero.
  intros ([] & wa & Hloop & Hrest)%bind_returned.
  exists wa. split; [done|].
  revert Hrest. unfold noMoreFiles, push, emit_on_self, bind, get, modify, throw; simpl.
  destruct (listeners (self wa)) as [|l ls] eqn:Hl; [done|].
  intros [= <-]. done.
Qed.

(** C6. When [fatalIncomingError] runs to its end, every file
    stream recorded in [_files] is marked cancelled and has the error
    raised on it, whatever has become of it since it was written (also
    one that a consumer has read to its end); both timers are cleared,
    the sequence is ended, with what was queued still queued, and the
    error is raised on the [Upstream] itself. *)
Theorem fatalIncomingError_cancels_every_file (e : error) (w w' : World) :
  fatalIncomingError e w = Returned tt w' →
  _files (self w') = cancelled_copy <$> _files (self w) ∧
  (∀ f, f ∈ _files (self w) → ∃ h, Heard (OnFile (stream f)) h e ∈ trace w') ∧
  timeouts (self w') = mkTimers None None ∧
  ended (self w') = true ∧
  buffer (self w') = buffer (self w) ∧
  (∃ h, Heard OnUpstream h e ∈ trace w').
Proof.
  intros (wa & Hloop & Hne & ->)%fatalIncomingError_returned.
  apply cancel_loop in Hloop as (Hf & _ & Hl & (extra & Ht & Hh) & _).
  unfold frame in Hf. simpl in Hf, Hl. injection Hf as _ _ _ Htm _ Hb _ _.
  split_and!; simpl.
  - apply list_eq. intros j. rewrite Hl, list_lookup_fmap.
    case_decide as Hj; [done|].
    rewrite (lookup_ge_None_2 (_files (self w)) j) by lia. done.
  - intros f Hf'. destruct (Hh f Hf') as [h Hin]. exists h.
    rewrite Ht. simpl. rewrite !elem_of_app. left. right. done.
  - done.
  - done.
  - done.
  - destruct (listeners (self wa)) as [|l ls]; [done|].
    exists (callback l). apply elem_of_app. right. simpl. apply elem_of_cons. by left.
Qed.

Lemma cancel_loop_completes e fs : ∀ k w,
  NoDup (stream <$> fs) →
  (∀ f, f ∈ fs → fs_listeners (heap w !!! stream f) ≠ []) →
  ∃ w', each (cancel_file e) (imap (fun i => pair (i + k)) fs) w = Returned tt w' ∧
        listeners (self w') = listeners (self w).
Proof.
  induction fs as [|f fs IH]; intros k w Hnd Hl.
  - exists w. done.
  - rewrite imap_cons. simpl each. change (0 + k) with k.
    rewrite fmap_cons in Hnd. apply NoDup_cons in Hnd as [Hf Hnd].
    assert (fs_listeners (heap w !!! stream f) ≠ []) as Hne
      by (apply Hl, elem_of_cons; by left).
    set (w1 := observe (map (fun l => Heard (OnFile (stream f)) (callback l) e)
                            (fs_listeners (heap w !!! stream f)))
                 (on_heap (<[stream f := fs_set_listeners after_emit (heap w !!! stream f)]>)
                    (on_self (set_files (cancel k)) w))).
    assert (cancel_file e (k, f) w = Returned tt w1) as H1.
    { unfold cancel_file, bind at 1, modify at 1. simpl.
      by rewrite emit_on_file_heard. }
    rewrite (bind_eq_returned _ _ _ _ _ H1).
    rewrite (imap_pair_shift fs k : imap ((fun i => pair (i + k)) ∘ S) fs = _).
    destruct (IH (S k) w1 Hnd) as (w' & Hw' & Hls).
    { intros f' Hf'. simpl. rewrite lookup_total_insert_ne.
      - apply Hl, elem_of_cons. by right.
      - intros Heq. apply Hf. rewrite Heq. apply list_elem_of_fmap. eauto. }
    exists w'. split; [done|]. rewrite Hls. done.
Qed.

(** [fatalIncomingError] runs to its end when something listens to the
    [Upstream] and to each of the recorded file streams, each recorded
    once. *)
Lemma fatalIncomingError_completes e w :
  NoDup (stream <$> _files (self w)) →
  (∀ f, f ∈ _files (self w) → fs_listeners (heap w !!! stream f) ≠ []) →
  listeners (self w) ≠ [] →
  ∃ w', fatalIncomingError e w = Returned tt w'.
Proof.
  intros Hnd Hl Hne. rewrite fatalIncomingError_unfold, imap_pair_zero.
  set (w0 := observe _ _).
  destruct (cancel_loop_completes e (_files (self w)) 0 w0 Hnd Hl) as (wa & Ha & Hls).
  rewrite (bind_eq_returned _ _ _ _ _ Ha).
  rewrite (bind_eq_returned _ _ _ tt _ (noMoreFiles_eq wa)).
  rewrite emit_on_self_heard; [eauto|]. simpl. rewrite Hls. done.
Qed.

Lemma fatalIncomingError_cancels_every_file_witness :
  let e := mkError (Some "ECANCELLED") "request aborted" in
  let w := state_of ((writeFile 1;;; read;;; modify (drain 1);;; writeFile 2)
                       (acquired (VString "docs") 0)) in
  let w' := state_of (fatalIncomingError e w) in
  _files (self w') = cancelled_copy <$> _files (self w) ∧
  (∀ f, f ∈ _files (self w) → ∃ h, Heard (OnFile (stream f)) h e ∈ trace w') ∧
  timeouts (self w') = mkTimers None None ∧
  ended (self w') = true ∧
  buffer (self w') = buffer (self w) ∧
  (∃ h, Heard OnUpstream h e ∈ trace w').
Proof.
  cbv zeta. apply fatalIncomingError_cancels_every_file.
  vm_compute. reflexivity.
Defined.

(** On the [Upstream] of field [docs], file 1 is written, pulled and
    read to its end by its consumer, and file 2 is written; then the
    request aborts.  File 1, delivered in full, is marked cancelled and
    has the error raised on it just as file 2. *)
Lemma delivered_file_is_cancelled_too :
  let e := mkError (Some "ECANCELLED") "request aborted" in
  let w := state_of ((writeFile 1;;; read;;; modify (drain 1);;; writeFile 2)
                       (acquired (VString "docs") 0)) in
  let w' := state_of (fatalIncomingError e w) in
  fs_drained (heap w !!! 1) = true ∧
  _files (self w) = [mkFile 1 bufferingOrWriting; mkFile 2 bufferingOrWriting] ∧
  buffer (self w) = [2] ∧
  fatalIncomingError e w = Returned tt w' ∧
  _files (self w') = [mkFile 1 cancelled; mkFile 2 cancelled] ∧
  trace w' = [FatalLogged 0 e;
              Heard (OnFile 1) onFileStreamError e;
              Heard (OnFile 2) onFileStreamError e;
              Heard OnUpstream onUpstreamError e].
Proof. cbv zeta. split_and!; vm_compute; reflexivity. Qed.

(** *** A second fatal incoming error *)

Lemma on_self_id f w : f (self w) = self w → on_self f w = w.
Proof. destruct w. unfold on_self. simpl. by intros ->. Qed.

Lemma on_heap_id f w : f (heap w) = heap w → on_heap f w = w.
Proof. destruct w. unfold on_heap. simpl. by intros ->. Qed.

Lemma observe_nil w : observe [] w = w.
Proof. destruct w. unfold observe. simpl. by rewrite app_nil_r. Qed.

Lemma observe_observe a b w : observe b (observe a w) = observe (a ++ b) w.
Proof. unfold observe. simpl. by rewrite app_assoc. Qed.

Lemma cancel_id k f fs :
  fs !! k = Some f → file_status f = cancelled → cancel k fs = fs.
Proof.
  intros Hk Hf. apply list_eq. intros j. unfold cancel.
  destruct (decide (j = k)) as [->|Hjk].
  - rewrite list_lookup_alter_eq, Hk. destruct f. simpl in *. by subst.
  - by rewrite list_lookup_alter_ne.
Qed.

Lemma fatalIncomingError_leaves_quiescent e w w' :
  fatalIncomingError e w = Returned tt w' → quiescent w'.
Proof.
  intros (wa & Hloop & Hne & ->)%fatalIncomingError_returned.
  apply cancel_loop in Hloop as (Hf & _ & Hl & _ & Hs).
  unfold frame in Hf. simpl in Hf, Hl, Hs. injection Hf as _ _ _ Htm _ _ _ _.
  assert (_files (self wa) = cancelled_copy <$> _files (self w)) as Hfiles.
  { apply list_eq. intros j. rewrite Hl, list_lookup_fmap.
    case_decide as Hj; [done|].
    rewrite (lookup_ge_None_2 (_files (self w)) j) by lia. done. }
  split_and!; simpl.
  - done.
  - done.
  - apply after_emit_persistent.
  - rewrite Hfiles. apply Forall_fmap, Forall_forall. intros f Hin. simpl.
    split; [done|]. apply Hs. right. apply list_elem_of_fmap. eauto.
Qed.

Section SecondCall.
Variable e : error.

Lemma again_cancel_file k f w :
  _files (self w) !! k = Some f → file_status f = cancelled →
  settled (heap w) (stream f) →
  cancel_file e (k, f) w =
    match fs_listeners (heap w !!! stream f) with
    | [] => Thrown e w
    | ls =>
        Returned tt
          (observe (map (fun l => Heard (OnFile (stream f)) (callback l) e) ls) w)
    end.
Proof.
  intros Hk Hf (x & Hx & Hp).
  assert (cancel_file e (k, f) w = emit_on_file (stream f) e w) as ->.
  { unfold cancel_file, bind at 1, modify at 1. simpl.
    rewrite on_self_id; [done|].
    destruct (self w) eqn:Hu. unfold set_files. simpl in *.
    by rewrite (cancel_id k f). }
  assert (heap w !!! stream f = x) as Htot by by apply lookup_total_correct.
  destruct (fs_listeners (heap w !!! stream f)) as [|l ls] eqn:Hl.
  - by apply emit_on_file_unheard.
  - rewrite emit_on_file_heard by (by rewrite Hl).
    rewrite Hl. rewrite on_heap_id; [done|]. apply insert_id.
    rewrite Hx, Htot. f_equal. destruct x. unfold fs_set_listeners. simpl in *.
    by rewrite after_emit_id.
Qed.

Lemma again_loop fs : ∀ k w,
  (∀ i f, fs !! i = Some f →
          _files (self w) !! (i + k) = Some f ∧ file_status f = cancelled ∧
          settled (heap w) (stream f)) →
  each (cancel_file e) (imap (fun i => pair (i + k)) fs) w =
    (if (raised_on_files (heap w) e fs).2 then Returned tt else Thrown e)
      (observe (raised_on_files (heap w) e fs).1 w).
Proof.
  induction fs as [|f fs IH]; intros k w H.
  - simpl. by rewrite observe_nil.
  - rewrite imap_cons. simpl each. change (0 + k) with k.
    destruct (H 0 f eq_refl) as (Hk & Hf & Hs).
    unfold bind. rewrite (again_cancel_file k f w Hk Hf Hs).
    cbn [raised_on_files].
    destruct (fs_listeners (heap w !!! stream f)) as [|l ls] eqn:Hl.
    + simpl. by rewrite observe_nil.
    + rewrite (imap_pair_shift fs k : imap ((fun i => pair (i + k)) ∘ S) fs = _).
      rewrite IH.
      2:{ intros i f' Hi. destruct (H (S i) f' Hi) as (? & ? & ?).
          replace (i + S k) with (S i + k) by lia. done. }
      change (heap (observe _ w)) with (heap w).
      destruct (raised_on_files (heap w) e fs) as [os ok]. cbn [fst snd].
      rewrite observe_observe. by destruct ok.
Qed.

(** On a store as [fatalIncomingError] leaves it, [fatalIncomingError]
    changes nothing: it writes its log line and raises the error again,
    on the recorded file streams in turn and then on the [Upstream], and
    throws where it finds no listener. *)
Lemma again_fatalIncomingError w :
  quiescent w →
  fatalIncomingError e w =
    (if (raised_again e w).2 then Returned tt else Thrown e)
      (observe (FatalLogged (clock w) e :: (raised_again e w).1) w).
Proof.
  intros (Htm & He & Hls & Hfs).
  rewrite fatalIncomingError_unfold, imap_pair_zero.
  rewrite (on_self_id (set_timeouts clear_all)).
  2:{ destruct (self w). unfold set_timeouts. simpl in *. by rewrite Htm. }
  set (w0 := observe [FatalLogged (clock w) e] w).
  unfold bind at 1. rewrite (again_loop (_files (self w)) 0 w0).
  2:{ intros i f Hi. rewrite Nat.add_0_r. split; [done|].
      by apply (Forall_lookup_1 _ _ _ _ Hfs Hi). }
  change (heap w0) with (heap w). unfold raised_again.
  destruct (raised_on_files (heap w) e (_files (self w))) as [os ok]. cbn [fst snd].
  unfold w0. rewrite observe_observe. destruct ok; [|done].
  set (w1 := observe _ w).
  rewrite (bind_eq_returned _ _ _ tt _ (noMoreFiles_eq w1)).
  rewrite (on_self_id (set_ended true)).
  2:{ simpl. destruct (self w). unfold set_ended. simpl in *. by rewrite He. }
  cbn [fst snd].
  destruct (listeners (self w)) as [|l ls] eqn:Hl.
  - rewrite emit_on_self_unheard by done. simpl. by rewrite app_nil_r.
  - rewrite emit_on_self_heard by (simpl; by rewrite Hl).
    rewrite (on_self_id (set_listeners after_emit)).
    2:{ simpl. destruct (self w). unfold set_listeners. simpl in *.
        rewrite after_emit_id; [done|]. by rewrite Hl. }
    unfold w1. rewrite observe_observe. simpl. by rewrite Hl.
Qed.

Lemma raised_on_files_all h fs :
  (raised_on_files h e fs).2 = true →
  ∀ f l, f ∈ fs → l ∈ fs_listeners (h !!! stream f) →
         Heard (OnFile (stream f)) (callback l) e ∈ (raised_on_files h e fs).1.
Proof.
  induction fs as [|f0 fs IH]; intros Hok f l Hf Hl; [by apply elem_of_nil in Hf|].
  cbn [raised_on_files] in *.
  destruct (fs_listeners (h !!! stream f0)) as [|l0 ls0] eqn:Hl0; [done|].
  cbn [fst snd] in *. apply elem_of_app.
  apply elem_of_cons in Hf as [->|Hf].
  - left. rewrite Hl0 in Hl.
    apply (list_elem_of_fmap_2 (fun l => Heard (OnFile (stream f0)) (callback l) e)) in Hl.
    exact Hl.
  - right. by apply IH.
Qed.

Lemma raised_on_files_listened h fs :
  (raised_on_files h e fs).2 = true →
  ∀ f, f ∈ fs → fs_listeners (h !!! stream f) ≠ [].
Proof.
  induction fs as [|f0 fs IH]; intros Hok f Hf; [by apply elem_of_nil in Hf|].
  cbn [raised_on_files] in *.
  destruct (fs_listeners (h !!! stream f0)) as [|l0 ls0] eqn:Hl0; [done|].
  cbn [fst snd] in *.
  apply elem_of_cons in Hf as [->|Hf]; [by rewrite Hl0|by apply IH].
Qed.
End SecondCall.

(** C7. After a [fatalIncomingError] that ran to its end, a second one
    leaves the store as the first left it (the file streams, the
    [Upstream] with its records, timers, queue, end flag and listeners,
    and the clock), but it is not without effect: it is logged again,
    and the error is raised again, on the recorded file streams in the
    order recorded and then on the [Upstream].  When the second call
    runs to its end, every recorded file stream and the [Upstream] had a
    listener left, and every listener left on them has heard the error
    once more; otherwise the call throws the error at the first of them
    that nothing listens to any more. *)
Theorem second_fatalIncomingError (e e' : error) (w w1 : World) :
  fatalIncomingError e w = Returned tt w1 →
  let again := raised_again e' w1 in
  fatalIncomingError e' w1 =
    (if again.2 then Returned tt else Thrown e')
      (observe (FatalLogged (clock w1) e' :: again.1) w1) ∧
  (again.2 = true →
     (∀ f, f ∈ _files (self w1) → fs_listeners (heap w1 !!! stream f) ≠ []) ∧
     listeners (self w1) ≠ [] ∧
     (∀ f l, f ∈ _files (self w1) → l ∈ fs_listeners (heap w1 !!! stream f) →
             Heard (OnFile (stream f)) (callback l) e' ∈ again.1) ∧
     (∀ l, l ∈ listeners (self w1) → Heard OnUpstream (callback l) e' ∈ again.1)) ∧
  again.1 =
    (raised_on_files (heap w1) e' (_files (self w1))).1 ++
    (if (raised_on_files (heap w1) e' (_files (self w1))).2
     then map (fun l => Heard OnUpstream (callback l) e') (listeners (self w1))
     else []).
Proof.
  intros H. cbv zeta. split_and!.
  - apply again_fatalIncomingError.
    by apply (fatalIncomingError_leaves_quiescent e w).
  - unfold raised_again.
    destruct (raised_on_files (heap w1) e' (_files (self w1))) as [os ok] eqn:Hr.
    cbn [fst snd]. destruct ok; cbn [fst snd]; [|done].
    intros Hne. apply negb_true_iff, bool_decide_eq_false in Hne.
    assert ((raised_on_files (heap w1) e' (_files (self w1))).2 = true) as Hok
      by by rewrite Hr.
    split_and!.
    + by apply (raised_on_files_listened e').
    + done.
    + intros f l Hf Hl. apply elem_of_app. left.
      pose proof (raised_on_files_all e' _ _ Hok f l Hf Hl) as Hin.
      by rewrite Hr in Hin.
    + intros l Hl. apply elem_of_app. right.
      by apply (list_elem_of_fmap_2 (fun l => Heard OnUpstream (callback l) e')).
  - unfold raised_again.
    destruct (raised_on_files (heap w1) e' (_files (self w1))) as [os ok].
    cbn [fst snd]. destruct ok; [done|]. cbn [fst]. by rewrite app_nil_r.
Qed.

Lemma second_fatalIncomingError_witness :
  let e := mkError (Some "ECANCELLED") "request aborted" in
  let e' := mkError (Some "ECANCELLED") "response closed" in
  let w := add_listener (mkListener false (external 1))
             (add_file_listener 7 (mkListener false (external 2))
                (state_of (writeFile 7 (acquired (VString "docs") 0)))) in
  let w1 := state_of (fatalIncomingError e w) in
  fatalIncomingError e' w1 =
    Returned tt
      (observe [FatalLogged 0 e'; Heard (OnFile 7) (external 2) e';
                Heard OnUpstream (external 1) e'] w1).
Proof.
  cbv zeta.
  pose proof (second_fatalIncomingError
                (mkError (Some "ECANCELLED") "request aborted")
                (mkError (Some "ECANCELLED") "response closed")
                (add_listener (mkListener false (external 1))
                   (add_file_listener 7 (mkListener false (external 2))
                      (state_of (writeFile 7 (acquired (VString "docs") 0)))))
                _ ltac:(vm_compute; reflexivity)) as [H _].
  etrans; [exact H|]. vm_compute. reflexivity.
Defined.

(** Calling [fatalIncomingError] twice is not the same as calling it
    once.  A file is written to an [Upstream] set up by [acquireUpstream];
    a receiver listens for good to the file stream (listener 2) and to
    the [Upstream] (listener 1).  Both a single call and two calls in a
    row run to their end, and with two calls each of the receiver's
    listeners hears the error twice. *)
Lemma fatalIncomingError_twice_differs :
  let e := mkError (Some "ECANCELLED") "request aborted" in
  let w := add_listener (mkListener false (external 1))
             (add_file_listener 7 (mkListener false (external 2))
                (state_of (writeFile 7 (acquired (VString "docs") 0)))) in
  let once_ := fatalIncomingError e w in
  let twice := (fatalIncomingError e;;; fatalIncomingError e) w in
  completed once_ = true ∧
  completed twice = true ∧
  trace (state_of once_) =
    [FatalLogged 0 e;
     Heard (OnFile 7) onFileStreamError e; Heard (OnFile 7) (external 2) e;
     Heard OnUpstream onUpstreamError e; Heard OnUpstream (external 1) e] ∧
  trace (state_of twice) =
    trace (state_of once_) ++
    [FatalLogged 0 e; Heard (OnFile 7) (external 2) e; Heard OnUpstream (external 1) e] ∧
  twice ≠ once_.
Proof.
  cbv zeta. split_and!.
  - vm_compute. reflexivity.
  - vm_compute. reflexivity.
  - vm_compute. reflexivity.
  - vm_compute. reflexivity.
  - intros H. apply (f_equal (fun o => length (trace (state_of o)))) in H.
    vm_compute in H. discriminate.
Qed.

End UpstreamProperties.


(** * Further properties *)

(** ** The middleware *)

Section MiddlewareFurther.

Import Js Middleware Arrival.

(** *** File parts, their ids and the streams they are written to *)

Lemma handle_event_global ev s :
  us_written (files (handle_event ev s)) =
    us_written (files s) ++ (with_id (_nextFileId s) <$> arriving ev) ∧
  _nextFileId (handle_event ev s) = _nextFileId s + length (arriving ev).
Proof.
  destruct ev as [p|f v| |err|err|v].
  - cbn [arriving]. destruct (isFile p) eqn:Hp.
    + destruct (part_shape p s Hp) as (wf & fr & [-> | ->]).
      * simpl. split; [done|lia].
      * destruct (detected_keeps (arrived p wf fr s)) as (-> & _ & -> & _).
        simpl. split; [done|lia].
    + rewrite part_not_file by done. simpl. rewrite app_nil_r. split; [done|lia].
  - simpl. rewrite app_nil_r. unfold onField.
    destruct (anyFilesDetected s); simpl; split; (done || lia).
  - simpl. rewrite app_nil_r. unfold giveUpOnFiles.
    destruct (maxWaitTimer s); [|split; (done || lia)].
    simpl. destruct (anyFilesDetected s); simpl; [split; (done || lia)|].
    destruct (passControl_keeps None (set_maxWaitTimer false s)) as (-> & _ & -> & _).
    simpl. split; (done || lia).
  - simpl. rewrite app_nil_r. unfold requestComplete.
    match goal with
    | |- context [passControl None ?x] =>
        destruct (passControl_keeps None x) as (-> & _ & -> & _)
    end. destruct err; simpl; split; (done || lia).
  - simpl. rewrite app_nil_r.
    destruct (passControl_keeps err s) as (-> & _ & -> & _). split; (done || lia).
  - simpl. rewrite app_nil_r. unfold req_file, bind, get, modify, ret, throw.
    destruct (negb (validFieldName v)); simpl; [split; (done || lia)|].
    destruct (reqClosed s); simpl; [split; (done || lia)|].
    destruct (get_property (_watchedFields s) (to_string v)); simpl; split; (done || lia).
Qed.

Lemma run_global evs : ∀ s,
  us_written (files (run evs s)) =
    us_written (files s) ++ imap (fun i => with_id (_nextFileId s + i)) (file_parts evs) ∧
  _nextFileId (run evs s) = _nextFileId s + length (file_parts evs).
Proof.
  induction evs as [|ev evs IH]; intros s.
  - simpl. rewrite app_nil_r. split; [done|lia].
  - change (run (ev :: evs) s) with (run evs (handle_event ev s)).
    destruct (IH (handle_event ev s)) as [IH1 IH2].
    destruct (handle_event_global ev s) as [H1 H2].
    rewrite IH1, IH2, H1, H2.
    change (file_parts (ev :: evs)) with (arriving ev ++ file_parts evs).
    rewrite imap_app, length_app, <- app_assoc. split; [|lia].
    f_equal. f_equal.
    + destruct ev as [p| | | | |]; simpl; try done.
      destruct (isFile p); simpl; [|done]. by rewrite Nat.add_0_r.
    + apply imap_ext. intros i x _. simpl. f_equal. lia.
Qed.

Lemma ids_of_imap ps : ∀ k,
  _id <$> imap (fun i => with_id (k + i)) ps = Some <$> seq k (length ps).
Proof.
  induction ps as [|p ps IH]; intros k; [done|].
  rewrite imap_cons. cbn [length]. rewrite <- cons_seq, !fmap_cons.
  f_equal; [simpl; f_equal; lia|].
  rewrite <- (IH (S k)). f_equal. apply imap_ext. intros i x _. simpl.
  f_equal. lia.
Qed.

Lemma setup_global body0 early :
  us_written (files (setup body0 early)) = [] ∧ _nextFileId (setup body0 early) = 0.
Proof. destruct early as [err|]; [by rewrite setup_early|done]. Qed.

(** X1. The global stream is written every file part, in the order of
    arrival, each with the next id: the ids are 0, 1, 2, ... without a
    gap or a repetition, and [_nextFileId] is the number of file parts
    so far.  Text parts and parts with an empty filename get no id. *)
Theorem global_stream_records_files_in_order
    (body0 : gmap string string) (early : option (option error)) (evs : list event) :
  let s := run evs (setup body0 early) in
  us_written (files s) = imap with_id (file_parts evs) ∧
  _id <$> us_written (files s) = Some <$> seq 0 (length (file_parts evs)) ∧
  _nextFileId s = length (file_parts evs).
Proof.
  cbv zeta. destruct (run_global evs (setup body0 early)) as [H1 H2].
  destruct (setup_global body0 early) as [Hw0 Hn0]. rewrite Hw0, Hn0 in H1.
  rewrite Hn0 in H2. simpl in H1, H2.
  assert (us_written (files (run evs (setup body0 early)))
          = imap with_id (file_parts evs)) as Hw.
  { rewrite H1. apply imap_ext. done. }
  split_and!; [done| |done].
  rewrite Hw. apply (ids_of_imap (file_parts evs) 0).
Qed.

Lemma of_field_snoc k ps p :
  of_field k (ps ++ [p]) = of_field k ps ++ (if decide (name p = k) then [p] else []).
Proof.
  unfold of_field. rewrite filter_app, filter_cons, filter_nil.
  by destruct (decide (name p = k)).
Qed.

Lemma of_field_none k ps :
  (∀ p, p ∈ ps → name p ≠ k) → of_field k ps = [].
Proof.
  unfold of_field. induction ps as [|p ps IH]; intros H; [done|].
  rewrite filter_cons, decide_False.
  - apply IH. intros q Hq. apply H. by apply elem_of_cons; right.
  - apply H. by apply elem_of_cons; left.
Qed.

Lemma part_open_effect p s :
  reqClosed s = false → isFile p = true →
  let p' := with_id (_nextFileId s) p in
  let s' := handle_event (Part p) s in
  files s' = us_write p' (files s) ∧
  _watchedFields s' =
    match get_property (_watchedFields s) (name p) with
    | Own _ => alter (us_write p') (name p) (_watchedFields s)
    | Inherited _ => _watchedFields s
    | Undefined =>
        alter (us_write p') (name p)
          (<[name p := us_set_fieldName (VString (name p)) (new_UploadStream (fresh s))]>
             (_watchedFields s))
    end ∧
  reqClosed s' = false.
Proof.
  intros Hc Hp. cbv zeta. cbn [handle_event]. unfold receiveFieldStream.
  rewrite Hp, receiveFile_eq, Hc. cbv zeta.
  destruct (get_property (_watchedFields s) (name p)); cbn [state_of]; [|done|];
    match goal with
    | |- context [detected ?x] =>
        destruct (detected_keeps x) as (-> & -> & _ & -> & _)
    end; done.
Qed.

(** A field that is not watched has no part on the global stream, unless
    it is named like a property of [Object.prototype]. *)
Lemma mirrored_unwatched s k :
  mirrored s → _watchedFields s !! k = None → inherited k = false →
  of_field k (us_written (files s)) = [].
Proof.
  intros [_ Hcov] Hl Hi. apply of_field_none. intros q Hq Hn. subst k.
  destruct (Hcov q Hq Hi) as [? Hq']. congruence.
Qed.

Lemma mirrored_step ev s :
  reqClosed (handle_event ev s) = false → mirrored s → mirrored (handle_event ev s).
Proof.
  intros Hc' Hms. pose proof Hms as [Hm Hcov].
  assert (reqClosed s = false) as Hc.
  { destruct (reqClosed s) eqn:E; [|done]. by rewrite (reqClosed_stays ev s E) in Hc'. }
  destruct ev as [p|f v| |err|err|v].
  - destruct (isFile p) eqn:Hp; [|by rewrite part_not_file].
    destruct (part_open_effect p s Hc Hp) as (Hf & Hw & _).
    set (p' := with_id (_nextFileId s) p) in *.
    destruct (get_property_cases (_watchedFields s) (name p))
      as [(u0 & Hl & Hg)|[(Hl & Hi & Hg)|(Hl & Hi & Hg)]]; rewrite Hg in Hw; clear Hg.
    + split.
      * intros k u. rewrite Hw, Hf. simpl. rewrite of_field_snoc.
        change (name p') with (name p).
        rewrite lookup_alter. case_decide as Hk.
        -- subst k. rewrite Hl. simpl. intros [= <-]. simpl.
           destruct (Hm _ _ Hl) as [Hi0 Hw0]. by rewrite Hw0.
        -- intros Hu. rewrite app_nil_r. by apply Hm.
      * intros q. rewrite Hw, Hf. simpl.
        intros [Hq| ->%list_elem_of_singleton]%elem_of_app Hi.
        -- apply lookup_alter_is_Some. by apply Hcov.
        -- change (name p') with (name p). apply lookup_alter_is_Some. by rewrite Hl.
    + split.
      * intros k u. rewrite Hw, Hf. simpl. rewrite of_field_snoc.
        change (name p') with (name p). intros Hu.
        destruct (Hm _ _ Hu) as [Hi0 Hw0]. split; [done|].
        rewrite decide_False by congruence. by rewrite app_nil_r.
      * intros q. rewrite Hw, Hf. simpl.
        intros [Hq| ->%list_elem_of_singleton]%elem_of_app Hi'.
        -- by apply Hcov.
        -- change (name p') with (name p) in Hi'. congruence.
    + split.
      * intros k u. rewrite Hw, Hf. simpl. rewrite of_field_snoc.
        change (name p') with (name p).
        rewrite lookup_alter. case_decide as Hk.
        -- subst k. rewrite lookup_insert_eq. simpl. intros [= <-]. simpl.
           split; [done|]. by rewrite (mirrored_unwatched s (name p)).
        -- rewrite lookup_insert_ne by done. intros Hu. rewrite app_nil_r. by apply Hm.
      * intros q. rewrite Hw, Hf. simpl.
        intros [Hq| ->%list_elem_of_singleton]%elem_of_app Hi'.
        -- apply lookup_alter_is_Some, lookup_insert_is_Some'. right. by apply Hcov.
        -- change (name p') with (name p). apply lookup_alter_is_Some.
           rewrite lookup_insert_eq. done.
  - cbn [handle_event]. destruct (onField_keeps f v s) as (Hf & Hw & _).
    unfold mirrored. rewrite Hf, Hw. done.
  - cbn [handle_event]. destruct (giveUpOnFiles_keeps s) as (Hf & Hw & _).
    unfold mirrored. rewrite Hf, Hw. done.
  - exfalso. cbn [handle_event] in Hc'. by rewrite requestComplete_closes in Hc'.
  - cbn [handle_event]. destruct (passControl_keeps err s) as (Hf & Hw & _).
    unfold mirrored. rewrite Hf, Hw. done.
  - simpl. unfold req_file, bind, get, modify, ret, throw.
    destruct (negb (validFieldName v)); [done|]. rewrite Hc.
    destruct (get_property_cases (_watchedFields s) (to_string v))
      as [(u0 & Hl & ->)|[(Hl & Hi & ->)|(Hl & Hi & ->)]]; [done|done|]. simpl.
    split; simpl.
    + intros k u. rewrite lookup_insert. case_decide as Hk.
      * subst k. intros [= <-]. simpl. split; [done|].
        by rewrite (mirrored_unwatched s (to_string v)).
      * apply Hm.
    + intros q Hq Hi'. apply lookup_insert_is_Some'. right. by apply Hcov.
Qed.

Lemma mirrored_run evs : ∀ s,
  reqClosed (run evs s) = false → mirrored s → mirrored (run evs s).
Proof.
  induction evs as [|ev evs IH]; intros s Hc Hm; [done|].
  change (run (ev :: evs) s) with (run evs (handle_event ev s)) in *.
  apply IH; [done|]. apply mirrored_step; [|done].
  destruct (reqClosed (handle_event ev s)) eqn:E; [|done].
  by rewrite (reqClosed_run evs _ E) in Hc.
Qed.

Lemma mirrored_setup body0 early : mirrored (setup body0 early).
Proof.
  destruct early as [err|]; [rewrite setup_early|];
    (split; [intros k u; simpl; by rewrite lookup_empty|]);
    intros p Hp; simpl in Hp; by apply elem_of_nil in Hp.
Qed.

(** X2. As long as the request is not flagged as closed, the stream of
    each watched field holds exactly the file parts of that field that
    the global stream holds, in the same order and with the same ids
    (also when the stream was first asked for by the application, by a
    string or by a number); no watched field is named like a property of
    [Object.prototype]; and every file part that arrived on a field not so
    named has its field watched. *)
Theorem field_streams_mirror_global
    (body0 : gmap string string) (early : option (option error)) (evs : list event) :
  let s := run evs (setup body0 early) in
  reqClosed s = false →
  (∀ k u, _watchedFields s !! k = Some u →
          inherited k = false ∧
          us_written u = of_field k (us_written (files s))) ∧
  (∀ p, p ∈ us_written (files s) → inherited (name p) = false →
        is_Some (_watchedFields s !! name p)).
Proof.
  cbv zeta. intros Hc.
  apply (mirrored_run evs (setup body0 early) Hc), mirrored_setup.
Qed.

Lemma field_streams_mirror_global_witness :
  let s := run [file_part ("avatar", "a.png"); FileLookup (VString "docs");
                file_part ("constructor", "x.bin");
                file_part ("docs", "b.pdf"); file_part ("avatar", "c.png")] (init ∅) in
  (∀ k u, _watchedFields s !! k = Some u →
          inherited k = false ∧
          us_written u = of_field k (us_written (files s))) ∧
  (∀ p, p ∈ us_written (files s) → inherited (name p) = false →
        is_Some (_watchedFields s !! name p)).
Proof.
  cbv zeta. apply (field_streams_mirror_global ∅ None). vm_compute. reflexivity.
Defined.

(** *** After the request has completed *)

Lemma closed_step ev s :
  reqClosed s = true → not_completion ev →
  _watchedFields (handle_event ev s) = _watchedFields s.
Proof.
  intros Hc Hev. destruct ev as [p|f v| |err|err|v]; cbn [handle_event].
  - unfold receiveFieldStream. destruct (isFile p); [|done].
    rewrite receiveFile_eq, Hc. cbv zeta. cbn [state_of].
    match goal with
    | |- context [detected ?x] => destruct (detected_keeps x) as (_ & -> & _)
    end. done.
  - by destruct (onField_keeps f v s) as (_ & -> & _).
  - by destruct (giveUpOnFiles_keeps s) as (_ & -> & _).
  - done.
  - by destruct (passControl_keeps err s) as (_ & -> & _).
  - unfold req_file, bind, get, modify, ret, throw.
    destruct (negb (validFieldName v)); [done|]. by rewrite Hc.
Qed.

(** X3. While the request is flagged as closed, which a completion
    does to it, it stays so, and nothing but another completion touches
    the watched streams any more: file parts that still arrive are
    written to the global stream only, lookups register nothing, and text
    fields and the timer leave the streams alone. *)
Theorem closed_request_freezes_watched_streams (evs : list event) (s : Session) :
  reqClosed s = true → Forall not_completion evs →
  reqClosed (run evs s) = true ∧
  _watchedFields (run evs s) = _watchedFields s ∧
  us_written (files (run evs s)) =
    us_written (files s) ++ imap (fun i => with_id (_nextFileId s + i)) (file_parts evs).
Proof.
  intros Hc Hevs. split_and!; [by apply reqClosed_run| |apply run_global].
  revert s Hc. induction Hevs as [|ev evs Hev _ IH]; intros s Hc; [done|].
  change (run (ev :: evs) s) with (run evs (handle_event ev s)).
  rewrite IH by (by apply reqClosed_stays). by apply closed_step.
Qed.

Lemma closed_request_freezes_watched_streams_witness :
  let s := run [file_part ("avatar", "a.png"); RequestComplete None] (init ∅) in
  let evs := [file_part ("docs", "late.pdf"); FileLookup (VString "other");
              file_part ("constructor", "late.bin");
              Field "x" "y"; MaxWaitElapsed] in
  reqClosed (run evs s) = true ∧
  _watchedFields (run evs s) = _watchedFields s ∧
  us_written (files (run evs s)) =
    us_written (files s) ++ imap (fun i => with_id (_nextFileId s + i)) (file_parts evs).
Proof.
  cbv zeta. apply closed_request_freezes_watched_streams.
  - vm_compute. reflexivity.
  - repeat constructor.
Defined.

(** *** When control passes *)

Lemma control_state_detected s : control_state s → control_state (detected s).
Proof.
  unfold control_state, detected, receiveFirstFile, passControl.
  destruct s as [b fl wf nid hc afd rc mwt fr nc lg]. simpl.
  intros [(-> & -> & -> & ->)|(-> & arg & ->)]; simpl.
  - right. eauto.
  - destruct afd; simpl; right; eauto.
Qed.

Lemma control_state_step ev s :
  control_state s → control_state (handle_event ev s).
Proof.
  intros Hs. destruct ev as [p|f v| |err|err|v].
  - destruct (isFile p) eqn:Hp; [|by rewrite part_not_file].
    destruct (part_shape p s Hp) as (wf & fr & [-> | ->]); [done|].
    by apply control_state_detected.
  - cbn [handle_event]. unfold onField. by destruct (anyFilesDetected s).
  - cbn [handle_event]. unfold control_state in *. unfold giveUpOnFiles, passControl.
    destruct s as [b fl wf nid hc afd rc mwt fr nc lg]. simpl in *.
    destruct Hs as [(-> & -> & -> & ->)|(-> & arg & ->)]; simpl.
    + destruct mwt; simpl; [right; eauto|left; done].
    + destruct mwt, afd; simpl; right; eauto.
  - cbn [handle_event]. unfold control_state in *. unfold requestComplete, passControl.
    destruct s as [b fl wf nid hc afd rc mwt fr nc lg]. simpl in *.
    destruct Hs as [(-> & -> & -> & ->)|(-> & arg & ->)]; destruct err; simpl; right; eauto.
  - cbn [handle_event]. unfold control_state in *. unfold passControl.
    destruct s as [b fl wf nid hc afd rc mwt fr nc lg]. simpl in *.
    destruct Hs as [(-> & -> & -> & ->)|(-> & arg & ->)]; simpl.
    + destruct err; simpl; right; eauto.
    + right; eauto.
  - cbn [handle_event]. unfold req_file, bind, get, modify, ret, throw.
    destruct (negb (validFieldName v)); [done|]. simpl.
    unfold control_state in *.
    destruct (reqClosed s) eqn:Hc; simpl.
    + destruct Hs as [(_ & _ & _ & [=])|Hs]. by right.
    + destruct (get_property (_watchedFields s) (to_string v)); simpl; by rewrite Hc.
Qed.

Lemma control_state_run evs : ∀ s, control_state s → control_state (run evs s).
Proof.
  induction evs as [|ev evs IH]; intros s Hs; [done|].
  apply IH. by apply control_state_step.
Qed.

Lemma control_state_setup body0 early : control_state (setup body0 early).
Proof.
  destruct early as [err|]; [rewrite setup_early; right; simpl; eauto|by left].
Qed.

(** X4. At every moment of a request [next] has been called exactly
    once if control has passed and not at all otherwise; control has
    passed whenever [anyFilesDetected] or [reqClosed] is set; a file part
    on a field not named like a property of [Object.prototype] sets
    [anyFilesDetected], and with it control has passed; and a completion
    always leaves [next] called exactly once: a request that completes
    never leaves the application waiting. *)
Theorem control_passes_exactly_once
    (body0 : gmap string string) (early : option (option error)) (evs : list event) :
  let s := run evs (setup body0 early) in
  length (next_calls s) = (if hasControl s then 0 else 1) ∧
  hasControl s && (anyFilesDetected s || reqClosed s) = false ∧
  (∀ p, isFile p = true → inherited (name p) = false →
        anyFilesDetected (handle_event (Part p) s) = true ∧
        hasControl (handle_event (Part p) s) = false) ∧
  ∀ err, ∃ arg, next_calls (handle_event (RequestComplete err) s) = [arg].
Proof.
  cbv zeta.
  assert (control_state (run evs (setup body0 early))) as Hs
    by apply control_state_run, control_state_setup.
  split_and!.
  - destruct Hs as [(-> & -> & _)|(-> & arg & ->)]; done.
  - destruct Hs as [(_ & _ & -> & ->)|(-> & _)]; [apply andb_false_r|done].
  - intros p Hp Hi.
    pose proof (control_state_step (Part p) _ Hs) as Hs'.
    destruct (part_returns p (run evs (setup body0 early)) Hp Hi) as (wf & fr & Heq).
    rewrite Heq in *.
    assert (anyFilesDetected (detected (arrived p wf fr (run evs (setup body0 early))))
            = true) as Ha.
    { unfold detected, receiveFirstFile. simpl.
      destruct (anyFilesDetected (run evs (setup body0 early))) eqn:E; [done|].
      match goal with
      | |- context [passControl None ?x] =>
          destruct (passControl_keeps None x) as (_ & _ & _ & _ & -> & _)
      end. done. }
    split; [done|].
    destruct Hs' as [(_ & _ & Hd & _)|(-> & _)]; [congruence|done].
  - intros err.
    pose proof (control_state_step (RequestComplete err) _ Hs) as Hs'.
    destruct Hs' as [(_ & _ & _ & Hc)|(_ & arg & ->)]; [|eauto].
    cbn [handle_event] in Hc. by rewrite requestComplete_closes in Hc.
Qed.

Lemma control_passes_exactly_once_witness :
  let s := run [Field "name" "bob"; file_part ("toString", "a.png")] (setup ∅ None) in
  let p := mkPart "avatar" (Some "b.png") None in
  anyFilesDetected (handle_event (Part p) s) = true ∧
  hasControl (handle_event (Part p) s) = false.
Proof.
  cbv zeta.
  destruct (control_passes_exactly_once ∅ None
              [Field "name" "bob"; file_part ("toString", "a.png")]) as (_ & _ & H & _).
  exact (H (mkPart "avatar" (Some "b.png") None) eq_refl eq_refl).
Defined.

Lemma snoc_singleton {A} (l : list A) (x y : A) : l ++ [x] = [y] → l = [] ∧ x = y.
Proof. destruct l as [|a [|b l]]; simpl; intros [=]; by subst. Qed.

Lemma timer_cleared_passControl err s :
  timer_cleared s → timer_cleared (passControl err s).
Proof.
  unfold timer_cleared, passControl. intros Hs.
  destruct (hasControl s); [|done].
  destruct err; simpl; [|done].
  by intros [_ [=]]%snoc_singleton.
Qed.

Lemma timer_cleared_step ev s :
  timer_cleared s → timer_cleared (handle_event ev s).
Proof.
  intros Hs. destruct ev as [p|f v| |err|err|v].
  - destruct (isFile p) eqn:Hp; [|by rewrite part_not_file].
    destruct (part_shape p s Hp) as (wf & fr & [-> | ->]); [done|].
    unfold detected. destruct (anyFilesDetected (arrived p wf fr s)); [done|].
    unfold receiveFirstFile. by apply timer_cleared_passControl.
  - cbn [handle_event]. unfold onField. by destruct (anyFilesDetected s).
  - cbn [handle_event]. unfold giveUpOnFiles.
    destruct (maxWaitTimer s) eqn:Ht; [|done]. cbv zeta.
    destruct (negb (anyFilesDetected (set_maxWaitTimer false s))).
    + apply timer_cleared_passControl. done.
    + done.
  - cbn [handle_event]. unfold requestComplete.
    apply timer_cleared_passControl. by destruct err.
  - cbn [handle_event]. by apply timer_cleared_passControl.
  - cbn [handle_event]. unfold req_file, bind, get, modify, ret, throw.
    destruct (negb (validFieldName v)); [done|].
    destruct (reqClosed s); [done|].
    by destruct (get_property (_watchedFields s) (to_string v)).
Qed.

Lemma timer_cleared_run evs : ∀ s, timer_cleared s → timer_cleared (run evs s).
Proof.
  induction evs as [|ev evs IH]; intros s Hs; [done|].
  apply IH. by apply timer_cleared_step.
Qed.

(** X5. Once [next] was called without an error, the callback of the
    wait timer does not call it again; and when the decoder did not call
    back during set-up, the timer is then no longer pending, so that its
    callback does not run at all. *)
Theorem wait_timer_cleared_when_control_passes
    (body0 : gmap string string) (early : option (option error)) (evs : list event) :
  let s := run evs (setup body0 early) in
  next_calls s = [None] →
  next_calls (handle_event MaxWaitElapsed s) = [None] ∧
  (early = None → maxWaitTimer s = false ∧ handle_event MaxWaitElapsed s = s).
Proof.
  cbv zeta. intros Hn.
  assert (control_state (run evs (setup body0 early))) as Hs
    by apply control_state_run, control_state_setup.
  assert (hasControl (run evs (setup body0 early)) = false) as Hc.
  { destruct Hs as [(_ & Hn' & _)|(-> & _)]; [congruence|done]. }
  split.
  - cbn [handle_event]. unfold giveUpOnFiles, passControl.
    destruct (maxWaitTimer _); [|done]. simpl.
    destruct (anyFilesDetected _); simpl; [done|]. by rewrite Hc.
  - intros ->.
    assert (timer_cleared (run evs (setup body0 None))) as Ht.
    { apply timer_cleared_run. intros [=]. }
    specialize (Ht Hn). split; [done|].
    cbn [handle_event]. unfold giveUpOnFiles. by rewrite Ht.
Qed.

Lemma wait_timer_cleared_when_control_passes_witness :
  let s := run [Field "name" "bob"; file_part ("avatar", "a.png")] (init ∅) in
  next_calls (handle_event MaxWaitElapsed s) = [None] ∧
  maxWaitTimer s = false ∧ handle_event MaxWaitElapsed s = s.
Proof.
  cbv zeta.
  destruct (wait_timer_cleared_when_control_passes ∅ None
              [Field "name" "bob"; file_part ("avatar", "a.png")]) as [H1 H2].
  - vm_compute. reflexivity.
  - split; [exact H1|exact (H2 eq_refl)].
Defined.

(** *** Parts that are not files *)

(** X6. A part without a filename, or with an empty one, is not
    handled as a file: it gets no id, is written to no stream, does not
    count as the first file and does not pass control. *)
Theorem part_without_filename_is_not_a_file (p : FieldStream) (s : Session) :
  filename p = None ∨ filename p = Some "" →
  handle_event (Part p) s = s.
Proof.
  intros Hp. cbn [handle_event]. unfold receiveFieldStream, isFile.
  destruct Hp as [-> | ->]; done.
Qed.

Lemma part_without_filename_is_not_a_file_witness :
  handle_event (Part (mkPart "avatar" (Some "") None)) (init ∅) = init ∅.
Proof. apply part_without_filename_is_not_a_file. by right. Defined.

(** *** Field names that are numbers *)

(** X7. A number and the string that renders it name the same field:
    while the request is open, [req.file] of the number and [req.file]
    of the string return the same stream, whichever comes first; they
    leave the request as it was when the stream was there already, and
    otherwise differ only in the [fieldName] noted on the new stream,
    which is the number or the string as given. *)
Theorem number_and_string_name_the_same_field (r : string) (s : Session) :
  reqClosed s = false →
  ∃ h s1 s2,
    req_file (VNumber (NFinite r)) s = Returned h s1 ∧
    req_file (VString r) s = Returned h s2 ∧
    req_file (VString r) s1 = Returned h s1 ∧
    req_file (VNumber (NFinite r)) s1 = Returned h s1 ∧
    req_file (VString r) s2 = Returned h s2 ∧
    req_file (VNumber (NFinite r)) s2 = Returned h s2 ∧
    (_watchedFields s !! r ≠ None ∨ inherited r = true → s1 = s ∧ s2 = s) ∧
    (_watchedFields s !! r = None → inherited r = false →
       ∃ u, s1 = set_watchedFields
                   (insert r (us_set_fieldName (VNumber (NFinite r)) u)) (set_fresh S s) ∧
            s2 = set_watchedFields
                   (insert r (us_set_fieldName (VString r) u)) (set_fresh S s)).
Proof.
  intros Hc.
  assert (∀ v s', to_string v = r → validFieldName v = true → reqClosed s' = false →
            req_file v s' =
              match get_property (_watchedFields s') r with
              | Own u => Returned (AnUploadStream (us_ref u)) s'
              | Inherited k => Returned (AnInherited k) s'
              | Undefined =>
                  Returned (AnUploadStream (fresh s'))
                    (set_watchedFields
                       (insert r (us_set_fieldName v (new_UploadStream (fresh s'))))
                       (set_fresh S s'))
              end) as Hreq.
  { intros v s' Hv Hvalid Hc'. rewrite (req_file_valid v s' Hvalid), Hc', Hv. done. }
  destruct (get_property_cases (_watchedFields s) r)
    as [(u & Hl & Hg)|[(Hl & Hi & Hg)|(Hl & Hi & Hg)]].
  - exists (AnUploadStream (us_ref u)), s, s.
    rewrite !Hreq by done. rewrite Hg.
    split_and!; [done..| |]; [done|]. intros Hn. by rewrite Hl in Hn.
  - exists (AnInherited r), s, s.
    rewrite !Hreq by done. rewrite Hg.
    split_and!; [done..| |]; [done|]. intros _ Hn. congruence.
  - exists (AnUploadStream (fresh s)),
      (set_watchedFields
         (insert r (us_set_fieldName (VNumber (NFinite r)) (new_UploadStream (fresh s))))
         (set_fresh S s)),
      (set_watchedFields
         (insert r (us_set_fieldName (VString r) (new_UploadStream (fresh s))))
         (set_fresh S s)).
    rewrite !(Hreq _ s) by done. rewrite Hg.
    split_and!; [reflexivity|reflexivity|..].
    + rewrite Hreq by done. unfold get_property. simpl. by rewrite lookup_insert_eq.
    + rewrite Hreq by done. unfold get_property. simpl. by rewrite lookup_insert_eq.
    + rewrite Hreq by done. unfold get_property. simpl. by rewrite lookup_insert_eq.
    + rewrite Hreq by done. unfold get_property. simpl. by rewrite lookup_insert_eq.
    + intros [Hn|Hn]; congruence.
    + intros _ _. exists (new_UploadStream (fresh s)). done.
Qed.

Lemma number_and_string_name_the_same_field_witness :
  ∃ h s1 s2,
    req_file (VNumber (NFinite "1")) (init ∅) = Returned h s1 ∧
    req_file (VString "1") (init ∅) = Returned h s2 ∧
    req_file (VString "1") s1 = Returned h s1 ∧
    req_file (VNumber (NFinite "1")) s2 = Returned h s2.
Proof.
  destruct (number_and_string_name_the_same_field "1" (init ∅) eq_refl)
    as (h & s1 & s2 & H1 & H2 & H3 & _ & _ & H4 & _).
  exists h, s1, s2. split_and!; assumption.
Defined.

(** *** Text fields that arrive in time *)

Lemma part_keeps_log p s : log (handle_event (Part p) s) = log s.
Proof.
  destruct (isFile p) eqn:Hp; [|by rewrite part_not_file].
  destruct (part_shape p s Hp) as (wf & fr & [-> | ->]); [done|].
  by destruct (detected_keeps (arrived p wf fr s)) as (_ & _ & _ & _ & _ & -> & _).
Qed.

Lemma assign_all_other kvs : ∀ (b : gmap string string) k,
  k ∉ kvs.*1 → assign_all kvs b !! k = b !! k.
Proof.
  induction kvs as [|[k0 v0] kvs IH]; intros b k Hk; [done|].
  rewrite fmap_cons, not_elem_of_cons in Hk. destruct Hk as [Hne Hk].
  simpl. rewrite (IH (set_string_property k0 v0 b) k Hk).
  by apply set_string_property_other.
Qed.

Lemma assign_all_app kvs1 kvs2 (b : gmap string string) :
  assign_all (kvs1 ++ kvs2) b = assign_all kvs2 (assign_all kvs1 b).
Proof. unfold assign_all. apply foldl_app. Qed.

Lemma assign_all_last kvs1 kvs2 (b : gmap string string) k v :
  k ∉ kvs2.*1 → k ≠ "__proto__" ∨ is_Some (b !! k) →
  assign_all (kvs1 ++ (k, v) :: kvs2) b !! k = Some v.
Proof.
  intros Hk Hown. rewrite assign_all_app.
  set (m := assign_all kvs1 b).
  change (assign_all ((k, v) :: kvs2) m) with (assign_all kvs2 (set_string_property k v m)).
  rewrite assign_all_other by done.
  destruct Hown as [Hne|Hown].
  - rewrite set_string_property_insert by (by left). apply lookup_insert_eq.
  - unfold set_string_property. destruct (m !! k) eqn:Hm; [apply lookup_insert_eq|].
    exfalso. revert Hm. unfold m. clear -Hown. revert b Hown.
    induction kvs1 as [|[k0 v0] kvs1 IH]; intros b [x Hx]; simpl.
    + congruence.
    + apply IH. unfold set_string_property.
      destruct (decide (k = k0)) as [<-|Hne].
      * rewrite Hx, lookup_insert_eq. eauto.
      * destruct (b !! k0); [|case_bool_decide];
          rewrite ?lookup_insert_ne by done; eauto.
Qed.

(** A text field named [__proto__] is stored nowhere, unless the body
    had an own property of that name. *)
Lemma assign_all_proto kvs : ∀ (b : gmap string string),
  b !! "__proto__" = None → assign_all kvs b !! "__proto__" = None.
Proof.
  induction kvs as [|[k0 v0] kvs IH]; intros b Hb; [done|].
  simpl. apply IH. destruct (decide (k0 = "__proto__")) as [->|Hne].
  - by rewrite set_string_property_proto.
  - by rewrite set_string_property_other.
Qed.

Lemma parts_keep_log ps : ∀ s, log (run (map Part ps) s) = log s.
Proof.
  induction ps as [|p ps IH]; intros s; [done|].
  change (run (map Part (p :: ps)) s) with (run (map Part ps) (handle_event (Part p) s)).
  by rewrite IH, part_keeps_log.
Qed.

(** X8. When the text fields of a request all arrive before its parts,
    the first of which is a file on a field not named like a property of
    [Object.prototype], then after any number of further parts [next]
    was called once, without an error; [req.body] holds, for every name
    among the fields other than [__proto__], the value of the last field
    of that name, and for every other name what it held before; a field
    named [__proto__] is stored nowhere, unless the body had an own
    property of that name, which then holds the last value; and no
    warning was logged. *)
Theorem text_fields_in_time_reach_body
    (body0 : gmap string string) (early : option (option error))
    (kvs : list (string * string)) (p : FieldStream) (ps : list FieldStream) :
  isFile p = true → inherited (name p) = false →
  let s := run (text_fields kvs ++ map Part (p :: ps)) (setup body0 early) in
  next_calls s = [None] ∧
  (∀ kvs1 k v kvs2, kvs = kvs1 ++ (k, v) :: kvs2 → k ∉ kvs2.*1 →
                    k ≠ "__proto__" ∨ is_Some (body0 !! k) →
                    body s !! k = Some v) ∧
  (∀ k, k ∉ kvs.*1 → body s !! k = body0 !! k) ∧
  (body0 !! "__proto__" = None → body s !! "__proto__" = None) ∧
  log s = log (setup body0 early).
Proof.
  intros Hp Hi. cbv zeta.
  destruct (fields_before_files body0 early kvs p ps Hp Hi) as [Hn Hb].
  split_and!; [done| | | |].
  - rewrite Hb. intros kvs1 k v kvs2 -> Hk Hown. by apply assign_all_last.
  - rewrite Hb. intros k Hk. by apply assign_all_other.
  - rewrite Hb. apply assign_all_proto.
  - rewrite run_app, run_text_fields
      by (destruct early; [by rewrite setup_early|done]).
    by rewrite parts_keep_log.
Qed.

Lemma text_fields_in_time_reach_body_witness :
  let kvs := [("name", "bob"); ("__proto__", "x"); ("name", "alice")] in
  let s := run (text_fields kvs ++
                map Part [mkPart "avatar" (Some "a.png") None]) (init ∅) in
  next_calls s = [None] ∧
  (∀ kvs1 k v kvs2, kvs = kvs1 ++ (k, v) :: kvs2 → k ∉ kvs2.*1 →
                    k ≠ "__proto__" ∨ is_Some ((∅ : gmap string string) !! k) →
                    body s !! k = Some v) ∧
  (∀ k, k ∉ kvs.*1 → body s !! k = (∅ : gmap string string) !! k) ∧
  ((∅ : gmap string string) !! "__proto__" = None → body s !! "__proto__" = None) ∧
  log s = log (init ∅).
Proof.
  cbv zeta. apply (text_fields_in_time_reach_body ∅ None); reflexivity.
Defined.

(** *** Fields named like a property of [Object.prototype] *)

(** X20. A file part on a field named like a property of
    [Object.prototype] that is not watched: [req.file] finds the inherited
    value and returns it, registering nothing; [receiveFile] has by then
    stamped the part and written it to the global stream, and the write
    to what [req.file] returned throws a [TypeError]; so no stream is
    watched for the field, [anyFilesDetected] is not set and [next] is
    not called. *)
Theorem file_part_on_inherited_field_name (p : FieldStream) (s : Session) :
  isFile p = true → reqClosed s = false →
  inherited (name p) = true → _watchedFields s !! name p = None →
  req_file (VString (name p)) s = Returned (AnInherited (name p)) s ∧
  receiveFile p s =
    Thrown not_a_function
      (set_files (us_write (with_id (_nextFileId s) p)) (set_nextFileId S s)) ∧
  handle_event (Part p) s =
    set_files (us_write (with_id (_nextFileId s) p)) (set_nextFileId S s).
Proof.
  intros Hp Hc Hi Hl.
  assert (get_property (_watchedFields s) (name p) = Inherited (name p)) as Hg
    by (unfold get_property; by rewrite Hl, Hi).
  split_and!.
  - rewrite req_file_valid by done. simpl. by rewrite Hc, Hg.
  - by rewrite receiveFile_eq, Hc, Hg.
  - cbn [handle_event]. unfold receiveFieldStream. by rewrite Hp, receiveFile_eq, Hc, Hg.
Qed.

Lemma file_part_on_inherited_field_name_witness :
  let p := mkPart "constructor" (Some "a.png") None in
  let s := init ∅ in
  req_file (VString "constructor") s = Returned (AnInherited "constructor") s ∧
  receiveFile p s =
    Thrown not_a_function (set_files (us_write (with_id 0 p)) (set_nextFileId S s)) ∧
  handle_event (Part p) s = set_files (us_write (with_id 0 p)) (set_nextFileId S s).
Proof.
  cbv zeta.
  apply (file_part_on_inherited_field_name
           (mkPart "constructor" (Some "a.png") None) (init ∅)); reflexivity.
Defined.

(** X21. The ['field'] listener assigns into a plain object: the field
    becomes an own property of [req.body] with the value, except a field
    named [__proto__] on a body without an own property of that name,
    which leaves [req.body] as it was; the other properties are left
    alone either way, and nothing but [req.body] and the log changes. *)
Theorem text_field_assignment (f v : string) (s : Session) :
  body (handle_event (Field f v) s) =
    (if bool_decide (f = "__proto__" ∧ body s !! f = None)
     then body s else <[f := v]> (body s)) ∧
  (∀ k, k ≠ f → body (handle_event (Field f v) s) !! k = body s !! k) ∧
  set_body (fun _ => body s) (handle_event (Field f v) s) =
    (if anyFilesDetected s then write_log (LateTextParam f) s else s).
Proof.
  rewrite onField_body. split_and!.
  - case_bool_decide as Hd.
    + destruct Hd as [-> Hn]. by apply set_string_property_proto.
    + apply set_string_property_insert.
      destruct (decide (f = "__proto__")) as [->|Hne]; [|by left].
      right. destruct (body s !! "__proto__") eqn:E; [eauto|]. by destruct Hd.
  - intros k Hk. by apply set_string_property_other.
  - cbn [handle_event]. unfold onField. destruct s; by destruct anyFilesDetected0.
Qed.

(** *** A decoder that calls back during set-up *)

Lemma passed_step ev s :
  hasControl s = false →
  hasControl (handle_event ev s) = false ∧
  next_calls (handle_event ev s) = next_calls s.
Proof.
  intros Hc. destruct ev as [p|f v| |err|err|v].
  - destruct (isFile p) eqn:Hp; [|by rewrite part_not_file].
    destruct (part_shape p s Hp) as (wf & fr & [-> | ->]); [done|].
    unfold detected, receiveFirstFile, passControl. simpl.
    destruct (anyFilesDetected s); simpl; by rewrite Hc.
  - cbn [handle_event]. unfold onField. by destruct (anyFilesDetected s).
  - cbn [handle_event]. unfold giveUpOnFiles, passControl.
    destruct (maxWaitTimer s); [|done]. simpl.
    destruct (anyFilesDetected s); simpl; by rewrite ?Hc.
  - cbn [handle_event]. unfold requestComplete, passControl.
    destruct err; simpl; by rewrite Hc.
  - cbn [handle_event]. unfold passControl. by rewrite Hc.
  - cbn [handle_event]. unfold req_file, bind, get, modify, ret, throw.
    destruct (negb (validFieldName v)); [done|].
    destruct (reqClosed s); [done|].
    by destruct (get_property (_watchedFields s) (to_string v)).
Qed.

Lemma passed_run evs : ∀ s,
  hasControl s = false →
  hasControl (run evs s) = false ∧ next_calls (run evs s) = next_calls s.
Proof.
  induction evs as [|ev evs IH]; intros s Hc; [done|].
  change (run (ev :: evs) s) with (run evs (handle_event ev s)).
  destruct (passed_step ev s Hc) as [Hc' Hn].
  destruct (IH _ Hc') as [H1 H2]. by rewrite H1, H2, Hn.
Qed.

(** X22. When the decoder calls [requestComplete] back inside
    [form.parse], the request is set up with control passed ([next] was
    called, with no argument, also when the decoder reported an error)
    and the global stream ended, but not flagged as closed and with the
    wait timer pending: a later [req.file] registers a new stream
    instead of returning a [NoopStream], and the timer's callback runs
    and calls nothing; whatever happens afterwards, [next] is not called
    again. *)
Theorem completion_during_setup
    (body0 : gmap string string) (err : option error) (k : string) (evs : list event) :
  inherited k = false →
  let s := setup body0 (Some err) in
  next_calls s = [None] ∧ hasControl s = false ∧
  us_ended (files s) = [err] ∧
  reqClosed s = false ∧ maxWaitTimer s = true ∧ anyFilesDetected s = false ∧
  req_file (VString k) s =
    Returned (AnUploadStream 1)
      (set_watchedFields
         (insert k (us_set_fieldName (VString k) (new_UploadStream 1)))
         (set_fresh S s)) ∧
  handle_event MaxWaitElapsed s = set_maxWaitTimer false s ∧
  next_calls (run evs s) = [None].
Proof.
  intros Hi. cbv zeta.
  assert (hasControl (setup body0 (Some err)) = false) as Hc by by rewrite setup_early.
  split_and!; try (by rewrite setup_early).
  - rewrite req_file_valid by done. rewrite setup_early. simpl.
    unfold get_property. by rewrite lookup_empty, Hi.
  - destruct (passed_run evs _ Hc) as [_ ->]. by rewrite setup_early.
Qed.

Lemma completion_during_setup_witness :
  let s := setup ∅ (Some (Some (mkError None "bad content-type header, no multipart boundary"))) in
  next_calls s = [None] ∧ hasControl s = false ∧
  us_ended (files s)
    = [Some (mkError None "bad content-type header, no multipart boundary")] ∧
  reqClosed s = false ∧ maxWaitTimer s = true ∧ anyFilesDetected s = false ∧
  req_file (VString "avatar") s =
    Returned (AnUploadStream 1)
      (set_watchedFields
         (insert "avatar" (us_set_fieldName (VString "avatar") (new_UploadStream 1)))
         (set_fresh S s)) ∧
  handle_event MaxWaitElapsed s = set_maxWaitTimer false s ∧
  next_calls (run [file_part ("avatar", "a.png"); RequestComplete None] s) = [None].
Proof.
  cbv zeta.
  apply (completion_during_setup ∅
           (Some (mkError None "bad content-type header, no multipart boundary"))
           "avatar" [file_part ("avatar", "a.png"); RequestComplete None]).
  reflexivity.
Defined.

End MiddlewareFurther.

(** ** The [Upstream] *)

Section UpstreamFurther.

Import Js Upstream.

(** *** What writing and pulling leave alone *)

Lemma writeFile_self ref w :
  let w' := state_of (writeFile ref w) in
  _files (self w') = _files (self w) ++ [mkFile ref bufferingOrWriting] ∧
  buffer (self w') = (if ended (self w) then buffer (self w) else buffer (self w) ++ [ref]) ∧
  ended (self w') = ended (self w) ∧
  connectedTo (self w') = connectedTo (self w) ∧
  timeouts (self w') = timeouts (self w) ∧
  opts (self w') = opts (self w) ∧
  fieldName (self w') = fieldName (self w) ∧
  clock w' = clock w.
Proof.
  cbv zeta. unfold writeFile, push, emit_on_self, bind, get, modify, ret, throw; simpl.
  destruct (ended (self w)) eqn:He; simpl; [|by rewrite He].
  destruct (listeners (self w)); simpl; by rewrite He.
Qed.

Lemma read_self w :
  let w' := state_of (read w) in
  _files (self w') = _files (self w) ∧
  ended (self w') = ended (self w) ∧
  connectedTo (self w') = connectedTo (self w) ∧
  timeouts (self w') = timeouts (self w) ∧
  opts (self w') = opts (self w) ∧
  fieldName (self w') = fieldName (self w) ∧
  clock w' = clock w ∧
  trace w' = trace w ∧
  heap w' = heap w.
Proof.
  cbv zeta. unfold read, _read, bind, get, modify, ret; simpl.
  destruct (ended (self w)) eqn:He; simpl; destruct (buffer (self w)); simpl;
    by rewrite ?He.
Qed.

Lemma play_self ops : ∀ w rs w',
  play ops w = Returned rs w' →
  stream <$> _files (self w') = (stream <$> _files (self w)) ++ emitted ops ∧
  connectedTo (self w') = connectedTo (self w) ∧
  timeouts (self w') = timeouts (self w) ∧
  opts (self w') = opts (self w) ∧
  fieldName (self w') = fieldName (self w) ∧
  clock w' = clock w.
Proof.
  induction ops as [|[f|] ops IH]; intros w rs w'.
  - intros [= <- <-]. simpl. by rewrite app_nil_r.
  - simpl. intros (a & w1 & H1 & H2)%bind_returned.
    apply IH in H2 as (Hf & Hc & Ht & Ho & Hn & Hk).
    destruct (writeFile_self f w) as (Hf1 & _ & _ & Hc1 & Ht1 & Ho1 & Hn1 & Hk1).
    rewrite H1 in *. simpl in *.
    rewrite Hf, Hc, Ht, Ho, Hn, Hk, Hf1, fmap_app, <- app_assoc. done.
  - simpl. intros (r & w1 & H1 & (rs' & w2 & H2 & H3)%bind_returned)%bind_returned.
    injection H3 as <- <-.
    apply IH in H2 as (Hf & Hc & Ht & Ho & Hn & Hk).
    destruct (read_self w) as (Hf1 & _ & Hc1 & Ht1 & Ho1 & Hn1 & Hk1 & _).
    rewrite H1 in *. simpl in *.
    rewrite Hf, Hc, Ht, Ho, Hn, Hk, Hf1. done.
Qed.

(** X9. [_files] is an append-only record: whatever the producer
    writes and the consumer pulls, the file streams recorded afterwards
    are those recorded before followed by those written, in order, also
    the ones already pulled; and neither writing nor pulling touches the
    timers or [connectedTo]. *)
Theorem files_record_is_append_only (ops : list op) (w : World) (rs : list pulled) (w' : World) :
  play ops w = Returned rs w' →
  stream <$> _files (self w') = (stream <$> _files (self w)) ++ emitted ops ∧
  timeouts (self w') = timeouts (self w) ∧
  connectedTo (self w') = connectedTo (self w).
Proof.
  intros H. apply play_self in H as (? & ? & ? & _). done.
Qed.

Lemma files_record_is_append_only_witness :
  let w := acquired (VString "avatar") 0 in
  let ops := [WriteFile 1; Pull; WriteFile 2; Pull; Pull] in
  let w' := state_of (play ops w) in
  stream <$> _files (self w') = (stream <$> _files (self w)) ++ emitted ops ∧
  timeouts (self w') = timeouts (self w) ∧
  connectedTo (self w') = connectedTo (self w).
Proof.
  cbv zeta.
  apply (files_record_is_append_only _ _
           [Item 1; Item 2; Pending]).
  vm_compute. reflexivity.
Defined.

(** X10. A file written after the end of the sequence is recorded in
    [_files] and gets its listener, but is never queued: the [Upstream]
    raises the error of a push after the end on itself instead, which
    its listeners hear and which is thrown if it has none. *)
Theorem writeFile_after_end (ref : nat) (w : World) :
  ended (self w) = true →
  let o := writeFile ref w in
  _files (self (state_of o)) = _files (self w) ++ [mkFile ref bufferingOrWriting] ∧
  mkListener true onFileStreamError ∈ fs_listeners (heap (state_of o) !!! ref) ∧
  buffer (self (state_of o)) = buffer (self w) ∧
  (listeners (self w) = [] → ∃ w', o = Thrown push_after_EOF w') ∧
  (∀ l ls, listeners (self w) = l :: ls →
     completed o = true ∧
     trace (state_of o) =
       trace w ++ map (fun l => Heard OnUpstream (callback l) push_after_EOF) (l :: ls)).
Proof.
  intros He. cbv zeta.
  destruct (writeFile_self ref w) as (Hf & Hb & _).
  rewrite He in Hb.
  set (w1 := add_file_listener ref (mkListener true onFileStreamError)
               (on_self (set_files (fun fs => fs ++ [mkFile ref bufferingOrWriting])) w)).
  assert (writeFile ref w = emit_on_self push_after_EOF w1) as Hw.
  { unfold writeFile, push, bind, get, modify; simpl. by rewrite He. }
  split_and!; [done| |done| |].
  - rewrite writeFile_heap, lookup_total_insert_eq. simpl.
    apply elem_of_app. right. by apply list_elem_of_singleton.
  - intros Hl. rewrite Hw. rewrite emit_on_self_unheard by done. eauto.
  - intros l ls Hl. rewrite Hw.
    rewrite emit_on_self_heard by (simpl; by rewrite Hl). simpl. by rewrite Hl.
Qed.

Lemma writeFile_after_end_witness :
  let w := state_of (noMoreFiles (acquired (VString "avatar") 0)) in
  let o := writeFile 3 w in
  _files (self (state_of o)) = _files (self w) ++ [mkFile 3 bufferingOrWriting] ∧
  mkListener true onFileStreamError ∈ fs_listeners (heap (state_of o) !!! 3) ∧
  buffer (self (state_of o)) = buffer (self w) ∧
  (listeners (self w) = [] → ∃ w', o = Thrown push_after_EOF w') ∧
  (∀ l ls, listeners (self w) = l :: ls →
     completed o = true ∧
     trace (state_of o) =
       trace w ++ map (fun l => Heard OnUpstream (callback l) push_after_EOF) (l :: ls)).
Proof. cbv zeta. apply writeFile_after_end. reflexivity. Defined.

(** *** The watchdogs *)

Lemma fire_first_file_due t d w :
  untilFirstFileTimer (timeouts (self w)) = Some d → (d ≤ t)%Z →
  fire_first_file t w =
    onFirstFileTimer
      (set_clock d
         (on_self (set_timeouts (fun tm => mkTimers None (untilMaxBufferTimer tm))) w)).
Proof.
  intros Hd Hle. unfold fire_first_file, bind at 1, get at 1. rewrite Hd.
  by rewrite (proj2 (Z.leb_le d t) Hle).
Qed.

Lemma fire_first_file_not_due t w :
  match untilFirstFileTimer (timeouts (self w)) with
  | Some d => (t < d)%Z
  | None => True
  end →
  fire_first_file t w = Returned tt w.
Proof.
  unfold fire_first_file, bind at 1, get at 1.
  destruct (untilFirstFileTimer (timeouts (self w))) as [d|]; [|done].
  intros Hlt. by rewrite (proj2 (Z.leb_gt d t) Hlt).
Qed.

Lemma fire_max_buffer_due t d w :
  untilMaxBufferTimer (timeouts (self w)) = Some d → (d ≤ t)%Z →
  fire_max_buffer t w =
    onMaxBufferTimer
      (set_clock d
         (on_self (set_timeouts (fun tm => mkTimers (untilFirstFileTimer tm) None)) w)).
Proof.
  intros Hd Hle. unfold fire_max_buffer, bind at 1, get at 1. rewrite Hd.
  by rewrite (proj2 (Z.leb_le d t) Hle).
Qed.

Lemma fire_max_buffer_not_due t w :
  match untilMaxBufferTimer (timeouts (self w)) with
  | Some d => (t < d)%Z
  | None => True
  end →
  fire_max_buffer t w = Returned tt w.
Proof.
  unfold fire_max_buffer, bind at 1, get at 1.
  destruct (untilMaxBufferTimer (timeouts (self w))) as [d|]; [|done].
  intros Hlt. by rewrite (proj2 (Z.leb_gt d t) Hlt).
Qed.

Lemma elapse_first_then_buffer t w :
  earlier (untilMaxBufferTimer (timeouts (self w)))
          (untilFirstFileTimer (timeouts (self w))) = false →
  elapse t w =
    bind (fire_first_file t)
         (fun _ => bind (fire_max_buffer t) (fun _ => modify (set_clock t))) w.
Proof.
  intros He. unfold elapse, bind at 1, get at 1. rewrite He.
  unfold bind. destruct (fire_first_file t w); [|done].
  by destruct (fire_max_buffer t s).
Qed.

Lemma elapse_idle t w :
  timeouts (self w) = mkTimers None None → elapse t w = Returned tt (set_clock t w).
Proof.
  intros Ht. rewrite elapse_first_then_buffer by (by rewrite Ht).
  rewrite (bind_eq_returned _ _ _ tt w) by (apply fire_first_file_not_due; by rewrite Ht).
  rewrite (bind_eq_returned _ _ _ tt w) by (apply fire_max_buffer_not_due; by rewrite Ht).
  done.
Qed.

Lemma fatalIncomingError_no_files e w :
  _files (self w) = [] →
  fatalIncomingError e w =
    emit_on_self e
      (on_self (set_ended true)
         (observe [FatalLogged (clock w) e] (on_self (set_timeouts clear_all) w))).
Proof. intros Hf. rewrite fatalIncomingError_unfold, Hf. reflexivity. Qed.

(** X11. An [Upstream] set up by [acquireUpstream] at time [now] to
    which no file is written fails when the clock reaches
    [now + 1500]: the first-file timer runs [fatalIncomingError] with its
    [ETIMEOUT] error at that time, the error is raised on the [Upstream],
    the sequence is ended, both timers are cleared (the buffering timer
    will not run any more), and a pull yields the end of the sequence. *)
Theorem first_file_deadline_fires (v : value) (now t : Z) :
  (now + 1500 ≤ t)%Z →
  let w := acquired v now in
  let e := first_file_timeout (self w) in
  ∃ w', elapse t w = Returned tt w' ∧
        code e = Some "ETIMEOUT" ∧
        trace w' = [FatalLogged (now + 1500) e; Heard OnUpstream onUpstreamError e] ∧
        ended (self w') = true ∧
        timeouts (self w') = mkTimers None None ∧
        clock w' = t ∧
        read w' = Returned EndOfSequence w' ∧
        ∀ t', elapse t' w' = Returned tt (set_clock t' w').
Proof.
  intros Ht. cbv zeta.
  rewrite elapse_first_then_buffer.
  2:{ simpl. apply Z.ltb_ge. lia. }
  set (w1 := observe [FatalLogged (now + 1500) (first_file_timeout (self (acquired v now)));
                      Heard OnUpstream onUpstreamError
                        (first_file_timeout (self (acquired v now)))]
               (mkWorld ∅
                  (mkUpstream defaults v [] [] (mkTimers None None) false [] true [])
                  (now + 1500) [])).
  rewrite (bind_eq_returned _ _ _ tt w1).
  2:{ rewrite (fire_first_file_due t (now + 1500)) by (done || lia).
      unfold onFirstFileTimer, bind at 1, get at 1.
      rewrite bool_decide_eq_true_2 by done.
      rewrite fatalIncomingError_no_files by done.
      rewrite emit_on_self_heard by done. reflexivity. }
  rewrite (bind_eq_returned _ _ _ tt w1) by (by apply fire_max_buffer_not_due).
  exists (set_clock t w1). split; [reflexivity|].
  split_and!; done.
Qed.

Lemma first_file_deadline_fires_witness :
  let w := acquired (VString "avatar") 0 in
  let e := first_file_timeout (self w) in
  ∃ w', elapse 1500 w = Returned tt w' ∧
        code e = Some "ETIMEOUT" ∧
        trace w' = [FatalLogged (0 + 1500) e; Heard OnUpstream onUpstreamError e] ∧
        ended (self w') = true ∧
        timeouts (self w') = mkTimers None None ∧
        clock w' = 1500%Z ∧
        read w' = Returned EndOfSequence w' ∧
        ∀ t', elapse t' w' = Returned tt (set_clock t' w').
Proof. cbv zeta. apply (first_file_deadline_fires (VString "avatar") 0 1500). lia. Defined.

(** X12. A file written in time disarms the first-file deadline: with
    one file written at [now], nothing is logged or raised while the
    clock stays before [now + 20000], the file stays queued and
    uncancelled, and the buffering timer stays pending for
    [now + 20000]. *)
Theorem file_in_time_disarms_first_file_deadline (v : value) (now t : Z) (ref : nat) :
  (t < now + 20000)%Z →
  let w := state_of (writeFile ref (acquired v now)) in
  ∃ w', elapse t w = Returned tt w' ∧
        trace w' = [] ∧
        _files (self w') = [mkFile ref bufferingOrWriting] ∧
        buffer (self w') = [ref] ∧
        ended (self w') = false ∧
        untilMaxBufferTimer (timeouts (self w')) = Some (now + 20000)%Z.
Proof.
  intros Ht. cbv zeta.
  set (w := state_of (writeFile ref (acquired v now))).
  rewrite elapse_first_then_buffer.
  2:{ simpl. apply Z.ltb_ge. lia. }
  destruct (decide (now + 1500 ≤ t)%Z) as [Hd|Hd].
  - set (w1 := set_clock (now + 1500)
                  (on_self (set_timeouts (fun tm => mkTimers None (untilMaxBufferTimer tm))) w)).
    rewrite (bind_eq_returned _ _ _ tt w1).
    2:{ rewrite (fire_first_file_due t (now + 1500)) by (done || lia). reflexivity. }
    rewrite (bind_eq_returned _ _ _ tt w1) by (by apply fire_max_buffer_not_due).
    exists (set_clock t w1). split; [reflexivity|]. done.
  - rewrite (bind_eq_returned _ _ _ tt w).
    2:{ apply fire_first_file_not_due. simpl. lia. }
    rewrite (bind_eq_returned _ _ _ tt w) by (by apply fire_max_buffer_not_due).
    exists (set_clock t w). split; [reflexivity|]. done.
Qed.

Lemma file_in_time_disarms_first_file_deadline_witness :
  let w := state_of (writeFile 1 (acquired (VString "avatar") 0)) in
  ∃ w', elapse 19999 w = Returned tt w' ∧
        trace w' = [] ∧
        _files (self w') = [mkFile 1 bufferingOrWriting] ∧
        buffer (self w') = [1] ∧
        ended (self w') = false ∧
        untilMaxBufferTimer (timeouts (self w')) = Some (0 + 20000)%Z.
Proof.
  cbv zeta.
  apply (file_in_time_disarms_first_file_deadline (VString "avatar") 0 19999 1). lia.
Defined.

(** X13. After a [fatalIncomingError] that ran to its end no timer of
    the [Upstream] runs any more, however much time passes; and what was
    queued before the error is still handed out to a consumer that pulls
    afterwards, in order, before the end of the sequence. *)
Theorem after_fatal_error_timers_idle_queue_kept
    (e : error) (w w' : World) (t : Z) (n : nat) :
  fatalIncomingError e w = Returned tt w' →
  elapse t w' = Returned tt (set_clock t w') ∧
  ∃ w'', pulls n w' =
           Returned (take n (Item <$> buffer (self w)) ++
                     replicate (n - length (buffer (self w))) EndOfSequence) w''.
Proof.
  intros H. pose proof (fatalIncomingError_leaves_quiescent e w w' H) as (Ht & He & _).
  split; [by apply elapse_idle|].
  apply fatalIncomingError_returned in H as (wa & Hloop & _ & ->).
  apply cancel_loop in Hloop as (Hf & _).
  unfold frame in Hf. simpl in Hf. injection Hf as _ _ _ _ _ Hb _ _.
  destruct (pulls_ended n _ He) as (w'' & Hp & _).
  exists w''. rewrite Hp. simpl. by rewrite Hb.
Qed.

Lemma after_fatal_error_timers_idle_queue_kept_witness :
  let e := mkError (Some "ECANCELLED") "request aborted" in
  let w := state_of ((writeFile 1;;; writeFile 2) (acquired (VString "docs") 0)) in
  let w' := state_of (fatalIncomingError e w) in
  elapse 50000 w' = Returned tt (set_clock 50000 w') ∧
  ∃ w'', pulls 3 w' =
           Returned (take 3 (Item <$> buffer (self w)) ++
                     replicate (3 - length (buffer (self w))) EndOfSequence) w''.
Proof.
  cbv zeta. apply (after_fatal_error_timers_idle_queue_kept
                     (mkError (Some "ECANCELLED") "request aborted")).
  vm_compute. reflexivity.
Defined.

(** *** Timers are one-shot *)

Lemma onFirstFileTimer_timers w w' :
  onFirstFileTimer w = Returned tt w' →
  timeouts (self w') = timeouts (self w) ∨ timeouts (self w') = mkTimers None None.
Proof.
  unfold onFirstFileTimer, bind at 1, get at 1. case_bool_decide.
  - intros Hfat. right. by apply fatalIncomingError_leaves_quiescent in Hfat as (? & _).
  - intros [= <-]. by left.
Qed.

Lemma onMaxBufferTimer_timers w w' :
  onMaxBufferTimer w = Returned tt w' →
  timeouts (self w') = timeouts (self w) ∨ timeouts (self w') = mkTimers None None.
Proof.
  unfold onMaxBufferTimer, bind at 1, get at 1. case_bool_decide.
  - intros Hfat. right. by apply fatalIncomingError_leaves_quiescent in Hfat as (? & _).
  - intros [= <-]. by left.
Qed.

Lemma fire_first_file_timers t w w' :
  fire_first_file t w = Returned tt w' →
  (∀ d, untilFirstFileTimer (timeouts (self w')) = Some d →
        untilFirstFileTimer (timeouts (self w)) = Some d ∧ (t < d)%Z) ∧
  (∀ d, untilMaxBufferTimer (timeouts (self w')) = Some d →
        untilMaxBufferTimer (timeouts (self w)) = Some d).
Proof.
  destruct (untilFirstFileTimer (timeouts (self w))) as [d0|] eqn:Hd.
  - destruct (decide (d0 ≤ t)%Z) as [Hle|Hgt].
    + rewrite (fire_first_file_due t d0 w Hd Hle).
      intros [Ht|Ht]%onFirstFileTimer_timers; rewrite Ht; simpl; split; intros d; try done.
    + rewrite fire_first_file_not_due by (rewrite Hd; lia).
      intros [= <-]. split; intros d; [|done]. rewrite Hd. intros [= <-]. split; [done|lia].
  - rewrite fire_first_file_not_due by by rewrite Hd.
    intros [= <-]. split; intros d; [|done]. by rewrite Hd.
Qed.

Lemma fire_max_buffer_timers t w w' :
  fire_max_buffer t w = Returned tt w' →
  (∀ d, untilMaxBufferTimer (timeouts (self w')) = Some d →
        untilMaxBufferTimer (timeouts (self w)) = Some d ∧ (t < d)%Z) ∧
  (∀ d, untilFirstFileTimer (timeouts (self w')) = Some d →
        untilFirstFileTimer (timeouts (self w)) = Some d).
Proof.
  destruct (untilMaxBufferTimer (timeouts (self w))) as [d0|] eqn:Hd.
  - destruct (decide (d0 ≤ t)%Z) as [Hle|Hgt].
    + rewrite (fire_max_buffer_due t d0 w Hd Hle).
      intros [Ht|Ht]%onMaxBufferTimer_timers; rewrite Ht; simpl; split; intros d; try done.
    + rewrite fire_max_buffer_not_due by (rewrite Hd; lia).
      intros [= <-]. split; intros d; [|done]. rewrite Hd. intros [= <-]. split; [done|lia].
  - rewrite fire_max_buffer_not_due by by rewrite Hd.
    intros [= <-]. split; intros d; [|done]. by rewrite Hd.
Qed.

(** X14. The timers are one-shot: when time has passed until [t], a
    timer that is still pending was pending before for the same time,
    which lies after [t]; no timer is ever set anew, and none that was
    due is left pending. *)
Theorem timers_are_one_shot (t : Z) (w w' : World) :
  elapse t w = Returned tt w' →
  (∀ d, untilFirstFileTimer (timeouts (self w')) = Some d →
        untilFirstFileTimer (timeouts (self w)) = Some d ∧ (t < d)%Z) ∧
  (∀ d, untilMaxBufferTimer (timeouts (self w')) = Some d →
        untilMaxBufferTimer (timeouts (self w)) = Some d ∧ (t < d)%Z).
Proof.
  unfold elapse, bind at 1, get at 1.
  destruct (earlier _ _).
  - intros (a & w2 & (b & w1 & H1 & H2)%bind_returned & [= <-])%bind_returned.
    destruct a, b.
    apply fire_max_buffer_timers in H1 as [Hb1 Hf1].
    apply fire_first_file_timers in H2 as [Hf2 Hb2].
    simpl. split; intros d Hd.
    + destruct (Hf2 d Hd). split; [by apply Hf1|done].
    + by apply Hb1, Hb2.
  - intros (a & w2 & (b & w1 & H1 & H2)%bind_returned & [= <-])%bind_returned.
    destruct a, b.
    apply fire_first_file_timers in H1 as [Hf1 Hb1].
    apply fire_max_buffer_timers in H2 as [Hb2 Hf2].
    simpl. split; intros d Hd.
    + by apply Hf1, Hf2.
    + destruct (Hb2 d Hd). split; [by apply Hb1|done].
Qed.

Lemma timers_are_one_shot_witness :
  let w := state_of (writeFile 1 (acquired (VString "avatar") 0)) in
  let w' := state_of (elapse 1500 w) in
  (∀ d, untilFirstFileTimer (timeouts (self w')) = Some d →
        untilFirstFileTimer (timeouts (self w)) = Some d ∧ (1500 < d)%Z) ∧
  (∀ d, untilMaxBufferTimer (timeouts (self w')) = Some d →
        untilMaxBufferTimer (timeouts (self w)) = Some d ∧ (1500 < d)%Z).
Proof. cbv zeta. apply timers_are_one_shot. vm_compute. reflexivity. Defined.

(** *** The buffering deadline, whatever was pulled *)

Lemma emit_on_file_trace ref e w :
  ∃ extra, trace (state_of (emit_on_file ref e w)) = trace w ++ extra.
Proof.
  destruct (fs_listeners (heap w !!! ref)) as [|l ls] eqn:Hl.
  - rewrite emit_on_file_unheard by done. exists []. simpl. by rewrite app_nil_r.
  - rewrite emit_on_file_heard by (by rewrite Hl). eexists. reflexivity.
Qed.

Lemma cancel_file_trace e entry w :
  ∃ extra, trace (state_of (cancel_file e entry w)) = trace w ++ extra.
Proof.
  apply (emit_on_file_trace (stream entry.2) e (on_self (set_files (cancel entry.1)) w)).
Qed.

Lemma cancel_each_trace e fs : ∀ w,
  ∃ extra, trace (state_of (each (cancel_file e) fs w)) = trace w ++ extra.
Proof.
  induction fs as [|entry fs IH]; intros w.
  - exists []. simpl. by rewrite app_nil_r.
  - simpl each. unfold bind at 1.
    destruct (cancel_file_trace e entry w) as [ex1 H1].
    destruct (cancel_file e entry w) as [[] w1|e1 w1]; simpl in H1.
    + destruct (IH w1) as [ex2 H2]. exists (ex1 ++ ex2).
      rewrite H2, H1. by rewrite app_assoc.
    + exists ex1. simpl. by rewrite H1.
Qed.

Lemma fatalIncomingError_logs e w :
  ∃ extra, trace (state_of (fatalIncomingError e w)) =
             trace w ++ FatalLogged (clock w) e :: extra.
Proof.
  rewrite fatalIncomingError_unfold.
  set (w0 := observe [FatalLogged (clock w) e] (on_self (set_timeouts clear_all) w)).
  destruct (cancel_each_trace e (imap pair (_files (self w))) w0) as [ex1 H1].
  unfold bind at 1.
  destruct (each (cancel_file e) (imap pair (_files (self w))) w0) as [[] w1|e1 w1];
    simpl in H1.
  - rewrite (bind_eq_returned _ _ _ tt _ (noMoreFiles_eq w1)).
    destruct (listeners (self w1)) as [|l ls] eqn:Hl.
    + rewrite emit_on_self_unheard by done. simpl. rewrite H1. simpl.
      exists ex1. by rewrite <- app_assoc.
    + rewrite emit_on_self_heard by (simpl; by rewrite Hl). simpl. rewrite H1. simpl.
      eexists. rewrite <- !app_assoc. reflexivity.
  - simpl. rewrite H1. simpl. exists ex1. by rewrite <- app_assoc.
Qed.

(** X15. The buffering deadline does not depend on what is pulled:
    for an [Upstream] set up at [now], after any writes and pulls of
    which at least one is a write, the buffering timer runs
    [fatalIncomingError] with its [ETIMEOUT] error when the clock reaches
    [now + 20000], since pulls set [_connected] while the timer looks at
    [connectedTo], which nothing changes. *)
Theorem buffer_deadline_fires_whatever_is_pulled
    (v : value) (now t : Z) (ops : list op) :
  emitted ops ≠ [] → (now + 20000 ≤ t)%Z →
  let w := acquired v now in
  let w1 := state_of (play ops w) in
  let e := max_buffer_timeout (self w) in
  code e = Some "ETIMEOUT" ∧
  connectedTo (self w1) = [] ∧
  ∃ extra, trace (state_of (elapse t w1)) =
             trace w1 ++ FatalLogged (now + 20000) e :: extra.
Proof.
  intros Hops Ht. cbv zeta.
  destruct (play_live ops (acquired v now) eq_refl) as (rs & w1 & Hp & _ & _).
  destruct (play_self ops _ _ _ Hp) as (Hf & Hc & Htm & Ho & Hn & Hk).
  rewrite Hp. simpl state_of. simpl in Hf, Hc, Htm, Ho, Hn, Hk.
  split_and!; [done|done|].
  assert (_files (self w1) ≠ []) as Hfiles.
  { intros Hnil. rewrite Hnil in Hf. by destruct (emitted ops). }
  rewrite elapse_first_then_buffer by (rewrite Htm; simpl; apply Z.ltb_ge; lia).
  set (w1a := set_clock (now + 1500)
                (on_self (set_timeouts (fun tm => mkTimers None (untilMaxBufferTimer tm))) w1)).
  rewrite (bind_eq_returned _ _ _ tt w1a).
  2:{ rewrite (fire_first_file_due t (now + 1500)) by (rewrite ?Htm; simpl; done || lia).
      unfold onFirstFileTimer, bind at 1, get at 1.
      rewrite bool_decide_eq_false_2; [done|].
      simpl. by destruct (_files (self w1)). }
  set (w1b := set_clock (now + 20000)
                (on_self (set_timeouts (fun tm => mkTimers (untilFirstFileTimer tm) None)) w1a)).
  set (e := max_buffer_timeout (self (acquired v now))).
  assert (fire_max_buffer t w1a = fatalIncomingError e w1b) as Hfire.
  { rewrite (fire_max_buffer_due t (now + 20000)) by (simpl; rewrite ?Htm; simpl; done || lia).
    unfold onMaxBufferTimer, bind at 1, get at 1.
    rewrite bool_decide_eq_true_2 by (simpl; by rewrite Hc).
    f_equal. unfold e, max_buffer_timeout. simpl. by rewrite Hn, Ho. }
  destruct (fatalIncomingError_logs e w1b) as [extra Hlog].
  exists extra. unfold bind at 1. rewrite Hfire.
  destruct (fatalIncomingError e w1b) as [[] w2|e2 w2]; simpl in *; exact Hlog.
Qed.

Lemma buffer_deadline_fires_whatever_is_pulled_witness :
  let w := acquired (VString "avatar") 0 in
  let w1 := state_of (play [WriteFile 1; Pull; Pull] w) in
  let e := max_buffer_timeout (self w) in
  code e = Some "ETIMEOUT" ∧
  connectedTo (self w1) = [] ∧
  ∃ extra, trace (state_of (elapse 20000 w1)) =
             trace w1 ++ FatalLogged (0 + 20000) e :: extra.
Proof.
  cbv zeta.
  apply (buffer_deadline_fires_whatever_is_pulled (VString "avatar") 0 20000
           [WriteFile 1; Pull; Pull]).
  - discriminate.
  - lia.
Defined.

(** *** [upload], once more *)

(** X16. The two listeners of [upload] do not know of each other: on a
    receiver with no other listeners, an ['error'] followed by a
    ['finish'] calls the callback twice, first with the error and then
    with no error and the files; each of the two events reaches the
    callback once only, since a second ['finish'] calls nothing and a
    second ['error'] is thrown. *)
Theorem upload_listeners_are_independent {R : Type}
    (cb : nat) (err : error) (files1 files2 : payload R) :
  let r := upload cb (mkReceiver [] [] false []) in
  ∃ r1, emit_error err files1 r = Returned tt r1 ∧
        invocations (emit_finish files2 r1) =
          [mkInvocation cb (Some err) None;
           mkInvocation cb None (Some (ensure_array files2))] ∧
        invocations (emit_finish files1 (emit_finish files2 r1)) =
          invocations (emit_finish files2 r1) ∧
        completed (emit_error err files1 r1) = false ∧
        invocations (emit_finish files1 (emit_finish files2 r)) =
          [mkInvocation cb None (Some (ensure_array files2))].
Proof. cbv zeta. eexists. split; [reflexivity|]. done. Qed.

End UpstreamFurther.

(** ** The parser's table of upstreams, and its options *)

Section ParserFurther.

Import Js Parser.

Lemma acquireUpstream_find_or_create_witness :
  let v := VString "avatar" in
  let p := mkParser [] false [] [] in
  let r := acquireUpstream v 0 p in
  (∃ u, upstreams r.2 !! r.1 = Some u ∧ Upstream.fieldName u = v) ∧
  (r.1 = 0 ∧ length (upstreams r.2) = 1) ∧
  acquireUpstream v 7 r.2 = r.
Proof.
  cbv zeta.
  destruct (acquireUpstream_find_or_create (VString "avatar") 0 7 (mkParser [] false [] []))
    as (H1 & _ & H2 & H3).
  split_and!; [exact H1|apply H2; reflexivity|apply H2; reflexivity|exact H3].
Defined.

Lemma find_index_prefix v us us' i :
  find_index v us = Some i → us `prefix_of` us' → find_index v us' = Some i.
Proof.
  intros Hi [k ->]. revert i Hi. induction us as [|u us IH]; intros i; simpl; [done|].
  case_bool_decide; [done|].
  destruct (find_index v us) as [j|]; [|done]. simpl. intros [= <-].
  by rewrite (IH j eq_refl).
Qed.

Lemma acquireUpstream_extends v now p :
  upstreams p `prefix_of` upstreams (acquireUpstream v now p).2 ∧
  find_index v (upstreams (acquireUpstream v now p).2) = Some (acquireUpstream v now p).1.
Proof.
  unfold acquireUpstream.
  destruct (find_index v (upstreams p)) as [i|] eqn:Hf; simpl.
  - done.
  - split; [by apply prefix_app_r|]. by apply find_index_snoc.
Qed.

(** X18. The upstreams of different fields are different, and the table
    only grows: acquiring a second field leaves the upstreams there were
    in their places, returns another one than the first field's, and the
    first field's upstream is still the one found for it afterwards. *)
Theorem different_fields_different_upstreams
    (v1 v2 : value) (now1 now2 now3 : Z) (p : Parser) :
  v1 ≠ v2 →
  let r1 := acquireUpstream v1 now1 p in
  let r2 := acquireUpstream v2 now2 r1.2 in
  r1.1 ≠ r2.1 ∧
  upstreams p `prefix_of` upstreams r1.2 ∧
  upstreams r1.2 `prefix_of` upstreams r2.2 ∧
  acquireUpstream v1 now3 r2.2 = (r1.1, r2.2).
Proof.
  intros Hne. cbv zeta.
  destruct (acquireUpstream_extends v1 now1 p) as [Hp1 Hf1].
  destruct (acquireUpstream_extends v2 now2 (acquireUpstream v1 now1 p).2) as [Hp2 Hf2].
  set (r1 := acquireUpstream v1 now1 p) in *.
  set (r2 := acquireUpstream v2 now2 r1.2) in *.
  pose proof (find_index_prefix _ _ _ _ Hf1 Hp2) as Hf1'.
  split_and!; [|done|done|].
  - intros Heq.
    destruct (find_index_lookup _ _ _ Hf1') as (u1 & Hu1 & Hn1).
    destruct (find_index_lookup _ _ _ Hf2) as (u2 & Hu2 & Hn2).
    rewrite Heq in Hu1. congruence.
  - unfold acquireUpstream. by rewrite Hf1'.
Qed.

Lemma different_fields_different_upstreams_witness :
  let p := mkParser [] false [] [] in
  let r1 := acquireUpstream (VString "avatar") 0 p in
  let r2 := acquireUpstream (VString "docs") 5 r1.2 in
  r1.1 ≠ r2.1 ∧
  upstreams p `prefix_of` upstreams r1.2 ∧
  upstreams r1.2 `prefix_of` upstreams r2.2 ∧
  acquireUpstream (VString "avatar") 9 r2.2 = (r1.1, r2.2).
Proof.
  cbv zeta. apply different_fields_different_upstreams. discriminate.
Defined.

(** X19. [applyDefaultOptions] keeps every option the caller has set and
    fills in the others, 500 ms to wait for the first file and 2500 ms to
    buffer; so the result has both options set, and applying the
    defaults to it again changes nothing. *)
Theorem applyDefaultOptions_fills_what_is_missing (given : option Defaults.options) :
  let o := Defaults.applyDefaultOptions given in
  Defaults.maxTimeToWaitForFirstFile o =
    Some (default 500%Z (given ≫= Defaults.maxTimeToWaitForFirstFile)) ∧
  Defaults.maxTimeToBuffer o =
    Some (default 2500%Z (given ≫= Defaults.maxTimeToBuffer)) ∧
  Defaults.applyDefaultOptions (Some o) = o.
Proof.
  cbv zeta. destruct given as [[[a|] [b|]]|]; done.
Qed.

End ParserFurther.
